(** * proxy-form: path utilities, the access-tracking proxy and [FieldsMap]

    A shallow embedding of [helpers.ts] and of the [field] binding of
    [hooks.ts], with the properties the specification states about them.

    JavaScript values are modelled as trees.  The form snapshot and the trie
    of a [FieldsMap] are trees (no object is reachable along two paths), so
    an assignment [obj[key] = v] on a child is the same as replacing the
    child in its parent's slot; [setIn] below writes it that way.  Object
    identity is not part of a tree: where the source compares two objects
    with [===] the comparison is a parameter (see [strictEquals]).

    Only own data properties of plain objects, the elements and the length
    of arrays and the characters of strings are modelled.  A run that reads
    a name an object may inherit ([toString], [__proto__], the methods of
    arrays) or a property of a function or of a [Map], or that would call
    code of a value, leaves the model: its result is [Beyond]. *)

From Stdlib Require Import List String Ascii ZArith NArith Bool Lia PrimFloat.
From Stdlib Require Import DecimalString DecimalPos DecimalN.
Import ListNotations.

#[local] Open Scope string_scope.
#[local] Open Scope list_scope.
#[local] Set Warnings "-register-all".

(** ** Values *)

(** A symbol is known by its identity only. *)
Definition symbol := nat.

(** What [obj[key]] is looked up under once [key] went through
    [ToPropertyKey]: a string or a symbol. *)
Inductive PropertyKey : Type :=
| KStr (s : string)
| KSym (y : symbol).

(** Numbers are IEEE 754 doubles, as in the language. *)
Inductive value : Type :=
| VUndef
| VNull
| VBool (b : bool)
| VNum (x : float)
| VStr (s : string)
| VSym (y : symbol)
| VObj (props : list (PropertyKey * value))   (* a plain object, own properties in creation order *)
| VArr (elems : list value)                   (* an array; a hole reads as [undefined] *)
| VFun (f : nat)                              (* a callable, opaque *)
| VMap (entries : list (value * value)).      (* a [Map], entries in insertion order *)

(** [types.ts]: a path segment is a string, a number or a symbol.  Numeric
    segments are array indices, non-negative integers. *)
Inductive FieldName : Type :=
| FStr (s : string)
| FNum (n : N)
| FSym (y : symbol).

Definition FieldPath := list FieldName.

(** ** Results *)

Inductive error : Type :=
| TypeError
| Error (message : string).

(** A call returns, throws, or leaves the modelled fragment of the language
    ([Beyond]): an assignment to a property the model has no place for, a
    conversion that would run code of the value. *)
Inductive res (A : Type) : Type :=
| Ok (a : A)
| Throw (e : error)
| Beyond.

Arguments Ok {A} a.
Arguments Throw {A} e.
Arguments Beyond {A}.

Definition bind {A B : Type} (c : res A) (k : A -> res B) : res B :=
  match c with
  | Ok a => k a
  | Throw e => Throw e
  | Beyond => Beyond
  end.

Notation "x <- c ;; k" := (bind c (fun x => k))
  (at level 61, c at next level, right associativity).

(** ** Built-ins *)

Definition is_undefined (v : value) : bool :=
  match v with VUndef => true | _ => false end.

(** [v === undefined || v === null] *)
Definition is_nullish (v : value) : bool :=
  match v with VUndef | VNull => true | _ => false end.

(** [ToBoolean] *)
Definition truthy (v : value) : bool :=
  match v with
  | VUndef | VNull => false
  | VBool b => b
  | VNum x => negb (PrimFloat.eqb x 0%float || PrimFloat.is_nan x)
  | VStr s => negb (String.eqb s "")
  | _ => true
  end.

Definition typeof (v : value) : string :=
  match v with
  | VUndef => "undefined"
  | VNull => "object"
  | VBool _ => "boolean"
  | VNum _ => "number"
  | VStr _ => "string"
  | VSym _ => "symbol"
  | VFun _ => "function"
  | VObj _ | VArr _ | VMap _ => "object"
  end.

(** [String(n)] for an integer [n] that a number holds exactly, below 2^53,
    an array index for one: its decimal digits.  (Beyond that [String]
    rounds, and from 10^21 on writes an exponent; such segments are not
    what this function is for, see [safe_segment].) *)
Definition String_of_number (n : N) : string :=
  NilZero.string_of_uint (N.to_uint n).

Fixpoint float_of_positive (p : positive) : float :=
  match p with
  | xH => 1%float
  | xO q => (2 * float_of_positive q)%float
  | xI q => (2 * float_of_positive q + 1)%float
  end.

(** The number value of an index (exact below 2^53). *)
Definition Number_of (n : N) : float :=
  match n with
  | N0 => 0%float
  | Npos p => float_of_positive p
  end.

Definition ToPropertyKey (key : FieldName) : PropertyKey :=
  match key with
  | FStr s => KStr s
  | FNum n => KStr (String_of_number n)
  | FSym y => KSym y
  end.

Definition PropertyKey_eqb (a b : PropertyKey) : bool :=
  match a, b with
  | KStr s, KStr t => String.eqb s t
  | KSym y, KSym z => Nat.eqb y z
  | _, _ => false
  end.

(** [SameValueZero], the equality of [Map] keys.  Two objects are the same
    key when they are the same object; every key this code looks up is a
    string, a number, a symbol or [undefined], which no object equals. *)
Definition SameValueZero (a b : value) : bool :=
  match a, b with
  | VUndef, VUndef => true
  | VNull, VNull => true
  | VBool x, VBool y => Bool.eqb x y
  | VNum x, VNum y => PrimFloat.eqb x y || (PrimFloat.is_nan x && PrimFloat.is_nan y)
  | VStr s, VStr t => String.eqb s t
  | VSym y, VSym z => Nat.eqb y z
  | _, _ => false
  end.

(** Ordered entries: what a [Map] and the own properties of an object are. *)
Section Entries.
Context {K V : Type} (same : K -> K -> bool).

Fixpoint entries_get (es : list (K * V)) (k : K) : option V :=
  match es with
  | [] => None
  | (k', v) :: rest => if same k' k then Some v else entries_get rest k
  end.

(** An existing key keeps its place, a new one goes last. *)
Fixpoint entries_set (es : list (K * V)) (k : K) (v : V) : list (K * V) :=
  match es with
  | [] => [(k, v)]
  | (k', v') :: rest =>
      if same k' k then (k', v) :: rest else (k', v') :: entries_set rest k v
  end.

Fixpoint entries_delete (es : list (K * V)) (k : K) : list (K * V) :=
  match es with
  | [] => []
  | (k', v') :: rest =>
      if same k' k then rest else (k', v') :: entries_delete rest k
  end.
End Entries.

(** [map.get(key)], [map.set(key, value)], [map.delete(key)], [map.keys()] *)
Definition Map_get (entries : list (value * value)) (key : value) : value :=
  match entries_get SameValueZero entries key with
  | Some v => v
  | None => VUndef
  end.

Definition Map_set (entries : list (value * value)) (key v : value) :=
  entries_set SameValueZero entries key v.

Definition Map_delete (entries : list (value * value)) (key : value) :=
  entries_delete SameValueZero entries key.

Definition Map_keys (entries : list (value * value)) : list value :=
  map fst entries.

(** The entries of a value that is a [Map]. *)
Definition Map_entries (map : value) : list (value * value) :=
  match map with
  | VMap entries => entries
  | _ => []
  end.

(** A canonical array index: the decimal digits of an integer below 2^32 - 1. *)
Definition array_index (key : PropertyKey) : option nat :=
  match key with
  | KStr s =>
      match NilZero.uint_of_string s with
      | Some d =>
          let n := N.of_uint d in
          if String.eqb (String_of_number n) s && N.ltb n 4294967295
          then Some (N.to_nat n) else None
      | None => None
      end
  | KSym _ => None
  end.

Definition string_at (s : string) (i : nat) : value :=
  match String.get i s with
  | Some c => VStr (String c EmptyString)
  | None => VUndef
  end.

(** [arr[i] = v]: in range the element is replaced, out of range the array
    grows and the holes in between read as [undefined]. *)
Fixpoint array_store (elems : list value) (i : nat) (v : value) : list value :=
  match i, elems with
  | O, [] => [v]
  | O, _ :: rest => v :: rest
  | S j, [] => VUndef :: array_store [] j v
  | S j, e :: rest => e :: array_store rest j v
  end.

(** ** helpers.ts *)

(** [mkDefault(defaultValue, ...values)]: the first value that is not
    [undefined], the default otherwise. *)
Definition mkDefault (defaultValue : value) (values : list value) : value :=
  match find (fun v => negb (is_undefined v)) values with
  | Some result => result
  | None => defaultValue
  end.

Definition AccessorFn := value -> FieldName -> res value.

(** The setter returns the object as it is after the assignment. *)
Definition SetterFn := value -> FieldName -> value -> res value.

(** The names of the members of [Object.prototype]. *)
Definition Object_prototype_names : list string :=
  ["constructor"; "__defineGetter__"; "__defineSetter__"; "hasOwnProperty";
   "__lookupGetter__"; "__lookupSetter__"; "isPrototypeOf";
   "propertyIsEnumerable"; "toString"; "valueOf"; "__proto__"; "toLocaleString"].

Definition inherited (k : PropertyKey) : bool :=
  match k with
  | KStr s => existsb (String.eqb s) Object_prototype_names
  | KSym _ => false
  end.

(** Reading a property that is not an own one: [undefined], unless the
    name may be found up the prototype chain.  The symbols of the model are
    made by [Symbol()] and name no inherited member. *)
Definition not_own (k : PropertyKey) (by_name : bool) : res value :=
  match k with
  | KStr _ => if by_name then Beyond else Ok VUndef
  | KSym _ => Ok VUndef
  end.

(** [objGetter = (obj, key) => obj[key]] *)
Definition objGetter : AccessorFn := fun obj key =>
  let k := ToPropertyKey key in
  match obj with
  | VUndef | VNull => Throw TypeError
  | VObj props =>
      match entries_get PropertyKey_eqb props k with
      | Some v => Ok v
      | None => not_own k (inherited k)
      end
  | VArr elems =>
      match array_index k with
      | Some i => Ok (nth i elems VUndef)
      | None =>
          if PropertyKey_eqb k (KStr "length")
          then Ok (VNum (Number_of (N.of_nat (List.length elems))))
          else not_own k true
      end
  | VStr s =>
      match array_index k with
      | Some i => Ok (string_at s i)
      | None =>
          if PropertyKey_eqb k (KStr "length")
          then Ok (VNum (Number_of (N.of_nat (String.length s))))
          else not_own k true
      end
  | VBool _ | VNum _ | VSym _ | VFun _ | VMap _ => not_own k true
  end.

(** [objSetter = (obj, key, value) => obj[key] = value], in a module, hence
    in strict mode: assigning to a property of a primitive throws, unless
    the key is [__proto__], whose inherited setter is run. *)
Definition objSetter : SetterFn := fun obj key v =>
  let k := ToPropertyKey key in
  match obj with
  | VUndef | VNull => Throw TypeError
  | VBool _ | VNum _ | VStr _ | VSym _ =>
      if PropertyKey_eqb k (KStr "__proto__") then Beyond else Throw TypeError
  | VObj props =>
      if PropertyKey_eqb k (KStr "__proto__") then Beyond   (* the inherited setter *)
      else Ok (VObj (entries_set PropertyKey_eqb props k v))
  | VArr elems =>
      match array_index k with
      | Some i => Ok (VArr (array_store elems i v))
      | None => Beyond
      end
  | VFun _ | VMap _ => Beyond
  end.

Section PathUtilities.
Variable accessor : AccessorFn.
Variable setter : SetterFn.
Variable defaultValue : unit -> value.

(** The callback of the [reduce] in [getIn]. *)
Definition getIn_step (result : res value) (key : FieldName) : res value :=
  r <- result ;;
  if is_nullish r then Ok VUndef else accessor r key.

Definition getIn (obj : value) (path : FieldPath) : res value :=
  fold_left getIn_step path (Ok obj).

(** The [reduce] of [setIn] over [path.slice(0, -1)], followed by the
    final [setter(lastObj, path[path.length - 1], value)].  The result is
    [result] as it is once the walk below it is over: a child that was
    updated in place is seen in the slot it was read from. *)
Fixpoint setIn_walk (result : value) (init : FieldPath) (lastKey : FieldName)
         (v : value) : res value :=
  match init with
  | [] => setter result lastKey v
  | key :: rest =>
      keyValue <- accessor result key ;;
      if is_undefined keyValue then
        let keyValue := defaultValue tt in
        result <- setter result key keyValue ;;
        keyValue <- setIn_walk keyValue rest lastKey v ;;
        setter result key keyValue
      else
        keyValue <- setIn_walk keyValue rest lastKey v ;;
        setter result key keyValue
  end.

(** [path[path.length - 1]] is [undefined] for the empty path; [objSetter]
    and [mapSetter] both turn that key into the string ["undefined"]. *)
Definition last_key (path : FieldPath) : FieldName :=
  last path (FStr "undefined").

Definition setIn (obj : value) (path : FieldPath) (v : value) : res value :=
  match path with
  | [key] => setter obj key v
  | _ => setIn_walk obj (removelast path) (last_key path) v
  end.
End PathUtilities.

(** [isPlainObject]: of the values of the model, the plain objects. *)
Definition isPlainObject (v : value) : bool :=
  match v with VObj _ => true | _ => false end.

Definition isArray (v : value) : bool :=
  match v with VArr _ => true | _ => false end.

Definition isFunction (v : value) : bool :=
  match v with VFun _ => true | _ => false end.

Definition isMap (v : value) : bool :=
  match v with VMap _ => true | _ => false end.

(** ** FieldsMap *)

(** [const selfRef = Symbol()], private to the module: no caller holds it. *)
Definition selfRef : FieldName := FSym 0.

Module FieldsMap.

(** [new Map()], the initial [fields]. *)
Definition empty : value := VMap [].

(** The key a segment is looked up under: [String(key)] unless it is a symbol. *)
Definition normalize (key : FieldName) : value :=
  match key with
  | FStr s => VStr s
  | FNum n => VStr (String_of_number n)
  | FSym y => VSym y
  end.

(** [obj.method(...)] on what is no [Map]: a plain object may have the
    method as a property of its own; anything else of the model has not,
    and the call throws. *)
Definition no_method {A : Type} (obj : value) (method : string) : res A :=
  match obj with
  | VObj props =>
      match entries_get PropertyKey_eqb props (KStr method) with
      | Some _ => Beyond
      | None => Throw TypeError
      end
  | _ => Throw TypeError
  end.

Definition mapGetter : AccessorFn := fun map key =>
  match map with
  | VMap entries => Ok (Map_get entries (normalize key))
  | _ => no_method map "get"
  end.

Definition mapSetter : SetterFn := fun map key v =>
  match map with
  | VMap entries => Ok (VMap (Map_set entries (normalize key) v))
  | _ => no_method map "set"
  end.

Definition get (fields : value) (path : FieldPath) : res value :=
  getIn mapGetter fields (path ++ [selfRef]).

(** [Array.from(map.keys()).forEach(key => ...)], where the callback gets
    [key] and [map.get(key)] and the result is what the callbacks push on
    [result], in order.  The keys of a [Map] are distinct, so [map.get(key)]
    is the value of the entry being visited. *)
Fixpoint forEach_key (callback : value -> value -> res (list value))
         (entries : list (value * value)) : res (list value) :=
  match entries with
  | [] => Ok []
  | (key, v) :: rest =>
      pushed <- callback key v ;;
      more <- forEach_key callback rest ;;
      Ok (pushed ++ more)
  end.

(** [maxDepth === undefined || depth < maxDepth] *)
Definition may_descend (maxDepth : option Z) (depth : Z) : bool :=
  match maxDepth with
  | None => true
  | Some d => Z.ltb depth d
  end.

(** [explore(map, depth)] of [getAllNested], returning what it pushes. *)
Fixpoint explore (maxDepth : option Z) (map : value) (depth : Z) : res (list value) :=
  match map with
  | VMap entries =>
      forEach_key
        (fun key v =>
           if negb (truthy v) then Ok []
           else if SameValueZero key (normalize selfRef) then Ok [v]
           else if may_descend maxDepth depth then explore maxDepth v (depth + 1)
           else Ok [])
        entries
  | _ => no_method map "keys"
  end.

Definition getAllNested (fields : value) (path : FieldPath) (maxDepth : option Z)
  : res (list value) :=
  map <- getIn mapGetter fields path ;;
  if negb (truthy map) then Ok [] else explore maxDepth map 0.

Definition keys (fields : value) (path : FieldPath) : res (list value) :=
  map <- getIn mapGetter fields path ;;
  if negb (truthy map) then Ok []
  else match map with
       | VMap entries =>
           Ok (filter (fun key => negb (SameValueZero key (normalize selfRef)))
                      (Map_keys entries))
       | _ => no_method map "keys"
       end.

(** [() => new Map()] *)
Definition newMap : unit -> value := fun _ => VMap [].

Definition set (fields : value) (path : FieldPath) (v : value) : res value :=
  setIn mapGetter mapSetter newMap fields (path ++ [selfRef]) v.

Definition has (fields : value) (path : FieldPath) : res bool :=
  v <- get fields path ;;
  Ok (negb (is_undefined v)).

(** [path[path.length - 1]] as [delete] hands it to [reference.delete]:
    not normalised. *)
Definition raw_last (path : FieldPath) : value :=
  match path with
  | [] => VUndef
  | _ => match last path selfRef with
         | FStr s => VStr s
         | FNum n => VNum (Number_of n)
         | FSym y => VSym y
         end
  end.

(** [delete]: [reference] is what [get] returns for the parent path, the
    payload stored there.  When that payload is a [Map] the key is removed
    from it, in place; in the tree that is the payload as it then is, where
    it sat.  (A [Map] that is the payload of several paths is several
    values in a tree: only at the parent path is the removal seen.) *)
Definition delete (fields : value) (path : FieldPath) : res value :=
  reference <- get fields (removelast path) ;;
  if isMap reference then
    let reference := VMap (Map_delete (Map_entries reference) (raw_last path)) in
    set fields (removelast path) reference
  else Ok fields.

End FieldsMap.

(** ** createProxy *)

(** A property key as a path segment: [[...prevPath, prop]]. *)
Definition FieldName_of (prop : PropertyKey) : FieldName :=
  match prop with
  | KStr s => FStr s
  | KSym y => FSym y
  end.

(** What the handler of a proxy closes over. *)
Record Proxy : Type := mkProxy {
  identifier : symbol;
  form : value;
  prevPath : FieldPath;
  parent : value            (* [getIn(form, prevPath)], read when the proxy is made *)
}.

(** What the [get] trap returns. *)
Inductive Got : Type :=
| GotInfo (parent : value) (prevPath : FieldPath)   (* [[parent, prevPath]] *)
| GotProxy (p : Proxy)
| GotBound (fn : value) (receiver : Proxy)          (* [value.bind(receiver)] *)
| GotValue (v : value).

(** The message of the error the mutation traps throw. *)
Definition direct_modification : error :=
  Error "Direct modifications on form data are not allowed! Use `updateForm`!".

Section CreateProxy.
(** [onAccess] acts on some state [S] of its own; in [useForm] it pushes
    the path on [accessedPaths]. *)
Context {S : Type} (onAccess : FieldPath -> S -> S).

Definition createProxy (identifier : symbol) (form : value) (prevPath : FieldPath)
  : res Proxy :=
  parent <- getIn objGetter form prevPath ;;
  Ok (mkProxy identifier form prevPath parent).

(** The [get] trap. *)
Definition proxy_get (p : Proxy) (prop : PropertyKey) (s : S) : res (Got * S) :=
  if PropertyKey_eqb prop (KSym (identifier p)) then
    Ok (GotInfo (parent p) (prevPath p), s)
  else
    v <- objGetter (parent p) (FieldName_of prop) ;;
    if isArray v || isPlainObject v then
      let path := prevPath p ++ [FieldName_of prop] in
      q <- createProxy (identifier p) (form p) path ;;
      Ok (GotProxy q, s)
    else if isFunction v then
      Ok (GotBound v p, onAccess (prevPath p ++ [FieldName_of prop]) s)
    else
      Ok (GotValue v, onAccess (prevPath p ++ [FieldName_of prop]) s).
End CreateProxy.

(** A write attempted on a proxy. *)
Inductive Mutation : Type :=
| Assign (prop : PropertyKey) (v : value)                   (* [proxy[prop] = v] *)
| DefineProperty (prop : PropertyKey) (descriptor : value)  (* [Object.defineProperty] *)
| DeleteProperty (prop : PropertyKey)                       (* [delete proxy[prop]] *)
| SetPrototypeOf (proto : value).                           (* [Object.setPrototypeOf] *)

(** The [set], [defineProperty], [deleteProperty] and [setPrototypeOf]
    traps, run on the snapshot as it is: each returns the snapshot as it
    leaves it, and what the trap did. *)
Definition proxy_set (p : Proxy) (prop : PropertyKey) (v : value) (snapshot : value)
  : value * res bool :=
  (snapshot, Throw direct_modification).

Definition proxy_defineProperty (p : Proxy) (prop : PropertyKey) (descriptor : value)
           (snapshot : value) : value * res bool :=
  (snapshot, Throw direct_modification).

Definition proxy_deleteProperty (p : Proxy) (prop : PropertyKey) (snapshot : value)
  : value * res bool :=
  (snapshot, Throw direct_modification).

Definition proxy_setPrototypeOf (p : Proxy) (proto : value) (snapshot : value)
  : value * res bool :=
  (snapshot, Throw direct_modification).

Definition proxy_mutate (p : Proxy) (m : Mutation) (snapshot : value) : value * res bool :=
  match m with
  | Assign prop v => proxy_set p prop v snapshot
  | DefineProperty prop descriptor => proxy_defineProperty p prop descriptor snapshot
  | DeleteProperty prop => proxy_deleteProperty p prop snapshot
  | SetPrototypeOf proto => proxy_setPrototypeOf p proto snapshot
  end.

(** The proxies reached from [root] by reading container properties. *)
Inductive nested (root : Proxy) : Proxy -> Prop :=
| nested_root : nested root root
| nested_get (p q : Proxy) (prop : PropertyKey) :
    nested root p ->
    proxy_get (fun (_ : FieldPath) (s : unit) => s) p prop tt = Ok (GotProxy q, tt) ->
    nested root q.

(** ** The global [isNaN] *)

(** A string holds the UTF-8 bytes of its text.  The white space that
    [StringToNumber] trims, [StrWhiteSpaceChar], is TAB, LF, VT, FF, CR and
    SP, one byte each, and U+00A0, U+1680, U+2000 to U+200A, U+2028, U+2029,
    U+202F, U+205F, U+3000 and U+FEFF, of two or three bytes. *)
Definition is_white (c : ascii) : bool :=
  let n := nat_of_ascii c in
  (Nat.leb 9 n && Nat.leb n 13) || Nat.eqb n 32.

Fixpoint starts_bytes (bytes : list nat) (s : list ascii) : bool :=
  match bytes, s with
  | [], _ => true
  | b :: more, c :: rest => Nat.eqb (nat_of_ascii c) b && starts_bytes more rest
  | _ :: _, [] => false
  end.

(** The last byte of the white space characters that begin E2 80. *)
Definition general_punctuation_space (n : nat) : bool :=
  (Nat.leb 128 n && Nat.leb n 138) || Nat.eqb n 168 || Nat.eqb n 169 || Nat.eqb n 175.

(** The number of bytes of the white space character [s] begins with, 0
    when it begins with none. *)
Definition white_front (s : list ascii) : nat :=
  match s with
  | [] => 0
  | c :: _ =>
      if is_white c then 1
      else if starts_bytes [194; 160] s then 2
      else if starts_bytes [225; 154; 128] s then 3
      else if starts_bytes [226; 128] s
                && general_punctuation_space (nat_of_ascii (nth 2 s Ascii.zero)) then 3
      else if starts_bytes [226; 129; 159] s then 3
      else if starts_bytes [227; 128; 128] s then 3
      else if starts_bytes [239; 187; 191] s then 3
      else 0
  end.

(** The same for the character a text ends with, on the bytes of the text
    in reverse. *)
Definition white_back (r : list ascii) : nat :=
  match r with
  | [] => 0
  | c :: _ =>
      if is_white c then 1
      else if starts_bytes [160; 194] r then 2
      else if starts_bytes [128; 154; 225] r then 3
      else if general_punctuation_space (nat_of_ascii c)
                && starts_bytes [128; 226] (tl r) then 3
      else if starts_bytes [159; 129; 226] r then 3
      else if starts_bytes [128; 128; 227] r then 3
      else if starts_bytes [191; 187; 239] r then 3
      else 0
  end.

(** Drop white space characters, as [measure] finds them, from the front. *)
Fixpoint skip_white (measure : list ascii -> nat) (fuel : nat) (s : list ascii)
  : list ascii :=
  match fuel with
  | O => s
  | S fuel' =>
      match measure s with
      | O => s
      | n => skip_white measure fuel' (skipn n s)
      end
  end.

Definition is_digit (c : ascii) : bool :=
  let n := nat_of_ascii c in Nat.leb 48 n && Nat.leb n 57.

Definition is_hex_digit (c : ascii) : bool :=
  let n := nat_of_ascii c in
  is_digit c || (Nat.leb 65 n && Nat.leb n 70) || (Nat.leb 97 n && Nat.leb n 102).

Definition is_octal_digit (c : ascii) : bool :=
  let n := nat_of_ascii c in Nat.leb 48 n && Nat.leb n 55.

Definition is_binary_digit (c : ascii) : bool :=
  let n := nat_of_ascii c in Nat.leb 48 n && Nat.leb n 49.

Fixpoint skip (test : ascii -> bool) (s : list ascii) : list ascii :=
  match s with
  | c :: rest => if test c then skip test rest else s
  | [] => []
  end.

Definition trim (s : list ascii) : list ascii :=
  let front := skip_white white_front (List.length s) s in
  rev (skip_white white_back (List.length front) (rev front)).

Definition starts_with (test : ascii -> bool) (s : list ascii) : bool :=
  match s with
  | c :: _ => test c
  | [] => false
  end.

Definition is_char (a : ascii) (c : ascii) : bool := Ascii.eqb a c.

Definition skip_sign (s : list ascii) : list ascii :=
  match s with
  | c :: rest => if is_char "+" c || is_char "-" c then rest else s
  | [] => []
  end.

Definition is_nil (s : list ascii) : bool :=
  match s with [] => true | _ => false end.

(** Nothing, or [ExponentPart]. *)
Definition exponent_opt (s : list ascii) : bool :=
  match s with
  | [] => true
  | c :: rest =>
      (is_char "e" c || is_char "E" c)
      && starts_with is_digit (skip_sign rest)
      && is_nil (skip is_digit (skip_sign rest))
  end.

Definition StrUnsignedDecimalLiteral (s : list ascii) : bool :=
  if String.eqb (string_of_list_ascii s) "Infinity" then true
  else match s with
       | c :: rest =>
           if is_char "." c then
             starts_with is_digit rest && exponent_opt (skip is_digit rest)
           else
             is_digit c
             && match skip is_digit s with
                | d :: more =>
                    if is_char "." d then exponent_opt (skip is_digit more)
                    else exponent_opt (d :: more)
                | [] => true
                end
       | [] => false
       end.

Definition NonDecimalIntegerLiteral (s : list ascii) : bool :=
  match s with
  | z :: x :: digits =>
      is_char "0" z && negb (is_nil digits)
      && (((is_char "x" x || is_char "X" x) && forallb is_hex_digit digits)
          || ((is_char "o" x || is_char "O" x) && forallb is_octal_digit digits)
          || ((is_char "b" x || is_char "B" x) && forallb is_binary_digit digits))
  | _ => false
  end.

(** [StringToNumber(s)] is not [NaN]: [s] is white space around nothing or
    around a [StrNumericLiteral]. *)
Definition is_numeric_string (s : string) : bool :=
  let t := trim (list_ascii_of_string s) in
  is_nil t || NonDecimalIntegerLiteral t || StrUnsignedDecimalLiteral (skip_sign t).

(** A plain object with a [valueOf] or a [toString] of its own is converted
    by running them. *)
Definition own_conversion (props : list (PropertyKey * value)) : bool :=
  match entries_get PropertyKey_eqb props (KStr "valueOf"),
        entries_get PropertyKey_eqb props (KStr "toString") with
  | None, None => false
  | _, _ => true
  end.

(** [isNaN(v)]: [ToNumber(v)] is [NaN].  Converting a symbol throws.  A
    plain object that inherits its conversions becomes ["[object Object]"],
    which is no number.  An array becomes what [join] makes of it: the
    empty string when it is empty, the string of its element when it has
    one ([undefined] and [null] give the empty string), and a string with
    a comma, no number, when it has more; an element that cannot be made a
    string fails the conversion.  Functions and [Map]s are not converted
    in the model. *)
Fixpoint isNaN (v : value) : res bool :=
  match v with
  | VUndef => Ok true
  | VNull | VBool _ => Ok false
  | VNum x => Ok (PrimFloat.is_nan x)
  | VStr s => Ok (negb (is_numeric_string s))
  | VSym _ => Throw TypeError
  | VObj props => if own_conversion props then Beyond else Ok true
  | VArr elems =>
      match elems with
      | [] => Ok false
      | [e] =>
          match e with
          | VUndef | VNull => Ok false
          | VBool _ => Ok true
          | _ => isNaN e
          end
      | _ =>
          (fix join (es : list value) : res bool :=
             match es with
             | [] => Ok true
             | e :: rest =>
                 _ <- match e with
                      | VUndef | VNull => Ok false
                      | _ => isNaN e
                      end ;;
                 join rest
             end) elems
      end
  | VFun _ | VMap _ => Beyond
  end.

(** ** hooks.ts: [field] *)

Definition is_object (v : value) : bool :=
  match v with VObj _ | VArr _ | VFun _ | VMap _ => true | _ => false end.

(** [String(key)] of a segment as [join] needs it. *)
Definition segment_string (key : FieldName) : res string :=
  match key with
  | FStr s => Ok s
  | FNum n => Ok (String_of_number n)
  | FSym _ => Throw TypeError
  end.

(** [path.join('.')] *)
Fixpoint join_path (path : FieldPath) : res string :=
  match path with
  | [] => Ok ""
  | [key] => segment_string key
  | key :: rest =>
      s <- segment_string key ;;
      t <- join_path rest ;;
      Ok (s ++ "." ++ t)%string
  end.

(** What [field] is called on: a value, or one of the proxies. *)
Inductive FieldArg : Type :=
| ArgValue (v : value)
| ArgProxy (p : Proxy).

(** Of the helpers [field] returns, the data. *)
Record FieldHelpers : Type := mkHelpers {
  name : string;
  helpers_value : value;
  fieldPath : FieldPath
}.

Definition incorrect_form_access : error :=
  Error "Incorrect form access. Are you mixing variables from nested useForm?".

Definition incorrect_field_access : error :=
  Error "Incorrect field access.".

Section UseForm.
(** [a === b] for two objects: whether they are the same object. *)
Variable same_object : value -> value -> bool.

Definition strictEquals (a b : value) : bool :=
  match a, b with
  | VUndef, VUndef => true
  | VNull, VNull => true
  | VBool x, VBool y => Bool.eqb x y
  | VNum x, VNum y => PrimFloat.eqb x y
  | VStr s, VStr t => String.eqb s t
  | VSym y, VSym z => Nat.eqb y z
  | _, _ => is_object a && is_object b && same_object a b
  end.

Variable proxyIdentifier : symbol.
Variable formState : value.

(** [accessedPaths.push(path)] *)
Definition push (path : FieldPath) (accessedPaths : list FieldPath) : list FieldPath :=
  accessedPaths ++ [path].

(** Lines 43-49: a proxy handed to [field] is replaced by the object it
    stands for, and its path is recorded.  A proxy of another [useForm]
    records on that form's list, which is not part of this state. *)
Definition unwrap (arg : FieldArg) (accessedPaths : list FieldPath)
  : res (value * list FieldPath) :=
  match arg with
  | ArgProxy p =>
      got <- proxy_get push p (KSym proxyIdentifier) accessedPaths ;;
      match got with
      | (GotInfo parent prevPath, accessedPaths) => Ok (parent, push prevPath accessedPaths)
      | _ => Beyond
      end
  | ArgValue v =>
      if truthy v && String.eqb (typeof v) "object" then
        proxyInfo <- objGetter v (FSym proxyIdentifier) ;;
        if truthy proxyInfo then Beyond else Ok (v, accessedPaths)
      else Ok (v, accessedPaths)
  end.

(** Lines 58-62, the sanity check. *)
Definition sanity_check (fieldValue v : value) : res unit :=
  if negb (strictEquals fieldValue v) then
    a <- isNaN fieldValue ;;
    if a then
      b <- isNaN v ;;
      if b then Ok tt else Throw incorrect_field_access
    else Throw incorrect_field_access
  else Ok tt.

(** [field(value, fieldOptions)] up to the helpers it returns;
    [controlled] is [fieldOptions?.controlled] and [formControlled] is
    [formOptions?.controlled]. *)
Definition field (arg : FieldArg) (controlled formControlled : value)
           (accessedPaths : list FieldPath) : res (FieldHelpers * list FieldPath) :=
  unwrapped <- unwrap arg accessedPaths ;;
  let (v, accessedPaths) := unwrapped : value * list FieldPath in
  match accessedPaths with
  | [] => Throw incorrect_form_access
  | _ :: _ =>
      let fieldPath := last accessedPaths [] in
      fieldValue <- getIn objGetter formState fieldPath ;;
      _ <- sanity_check fieldValue v ;;
      let accessedPaths :=
        if negb (truthy (mkDefault (VBool true) [controlled; formControlled]))
        then removelast accessedPaths else accessedPaths in
      name <- join_path fieldPath ;;
      Ok (mkHelpers name fieldValue fieldPath, accessedPaths)
  end.
End UseForm.

(** ** Preconditions *)

(** The factory of [hooks.ts]: [() => ({})]. *)
Definition newObject : unit -> value := fun _ => VObj [].

(** [obj[key] = v] is an assignment the model has a place for: [obj] is a
    plain object, or an array and [key] an index. *)
Definition holds_key (obj : value) (key : FieldName) : bool :=
  match obj with
  | VObj _ => negb (PropertyKey_eqb (ToPropertyKey key) (KStr "__proto__"))
  | VArr _ =>
      match array_index (ToPropertyKey key) with
      | Some _ => true
      | None => false
      end
  | _ => false
  end.

(** [path] can be set below [obj]: it is not empty, what is there already
    along it, as far as it goes, is plain objects and arrays addressed by
    index, and where it goes on through objects made by the factory its
    segments read as [undefined] there. *)
Fixpoint settable (obj : value) (path : FieldPath) : bool :=
  match path with
  | [] => false
  | key :: rest =>
      holds_key obj key
      && match rest with
         | [] => true
         | _ :: _ =>
             match objGetter obj key with
             | Ok child =>
                 settable (if is_undefined child then newObject tt else child) rest
             | _ => false
             end
         end
  end.

(** The shape of the [fields] of a [FieldsMap]: a [Map] from normalised
    segments, each once, whose values, but for the payload under [selfRef],
    are such [Map]s again. *)
Inductive trie : value -> Prop :=
| trie_node (entries : list (value * value)) :
    NoDup (map fst entries) ->
    (forall k v, In (k, v) entries -> exists key, k = FieldsMap.normalize key) ->
    (forall k v, In (k, v) entries -> k <> FieldsMap.normalize selfRef -> trie v) ->
    trie (VMap entries).

(** The states of [fields] a [FieldsMap] goes through: it starts empty and
    changes by [set] and [delete], on paths of its callers, who do not hold
    the sentinel. *)
Inductive reachable : value -> Prop :=
| reachable_new : reachable FieldsMap.empty
| reachable_set (fields fields' : value) (path : FieldPath) (v : value) :
    reachable fields ->
    ~ In selfRef path ->
    FieldsMap.set fields path v = Ok fields' ->
    reachable fields'
| reachable_delete (fields fields' : value) (path : FieldPath) :
    reachable fields ->
    ~ In selfRef path ->
    FieldsMap.delete fields path = Ok fields' ->
    reachable fields'.

(** [q] lies within the depth bound below a node explored at [depth]. *)
Definition within (maxDepth : option Z) (depth : Z) (q : FieldPath) : Prop :=
  match maxDepth with
  | None => True
  | Some d => q = [] \/ (depth + Z.of_nat (List.length q) <= d)%Z
  end.

(** The numeric segments [String] writes with all their digits and no
    exponent: the integers a number holds exactly, below 2^53; the array
    indices are among them. *)
Definition safe_segment (key : FieldName) : bool :=
  match key with
  | FNum n => N.ltb n 9007199254740992
  | _ => true
  end.

(** U+00A0, the no-break space, as its two bytes. *)
Definition no_break_space : string :=
  String (ascii_of_nat 194) (String (ascii_of_nat 160) EmptyString).

(** A numeric segment written as the string [String] makes of it. *)
Definition canonical (key : FieldName) : FieldName :=
  match key with
  | FNum n => FStr (String_of_number n)
  | _ => key
  end.

(** The snapshot of the specification's examples:
    [{user: {name: "x", age: 3}}]. *)
Definition example_user : value :=
  VObj [(KStr "name", VStr "x"); (KStr "age", VNum 3)].

Definition example_snapshot : value :=
  VObj [(KStr "user", example_user)].

(** ** hooks.ts: [onChange] *)

(** [v === s] for a string literal [s]. *)
Definition is_string (v : value) (s : string) : bool :=
  match v with
  | VStr t => String.eqb t s
  | _ => false
  end.

(** The new value [onChange] finds in its argument: of a change event (an
    object with a truthy [target]) the [checked] of a checkbox and the
    [value] of anything else; the argument itself otherwise. *)
Definition event_value (eventOrValue : value) : res value :=
  if is_object eventOrValue then
    target <- objGetter eventOrValue (FStr "target") ;;
    if truthy target then
      type <- objGetter target (FStr "type") ;;
      if is_string type "checkbox" then objGetter target (FStr "checked")
      else objGetter target (FStr "value")
    else Ok eventOrValue
  else Ok eventOrValue.

(** What [onChange] hands to [update]: the function that is run on the
    form, and [{ notify }]. *)
Record Update : Type := mkUpdate {
  mutator : value -> res value;
  notify : bool
}.

(** [onChange(eventOrValue)] of the helpers of a field; [transform] is
    [fieldOptions?.transform], [fieldMode] and [formMode] are
    [fieldOptions?.mode] and [formOptions?.mode]. *)
Definition onChange (fieldPath : FieldPath) (fieldValue : value)
           (transform : option (value -> value -> res value))
           (fieldMode formMode : value) (eventOrValue : value) : res Update :=
  let mode := mkDefault (VStr "onChange") [fieldMode; formMode] in
  newValue <- event_value eventOrValue ;;
  newValue <- match transform with
              | Some t => t newValue fieldValue
              | None => Ok newValue
              end ;;
  Ok (mkUpdate (fun form => setIn objGetter objSetter newObject form fieldPath newValue)
               (is_string mode "onChange")).

(** [onBlur()]: whether it calls [trigger]. *)
Definition onBlur (fieldMode formMode : value) : bool :=
  is_string (mkDefault (VStr "onChange") [fieldMode; formMode]) "onBlur".

(** An option that is absent or a boolean. *)
Definition flag (o : option bool) : value :=
  match o with
  | Some b => VBool b
  | None => VUndef
  end.

(** * Properties *)

(** ** Entries *)

Section EntriesFacts.
Context {K V : Type} (same : K -> K -> bool).

Lemma entries_get_set_same (es : list (K * V)) (k : K) (v : V) :
  same k k = true ->
  entries_get same (entries_set same es k v) k = Some v.
Proof.
  intros Hrefl. induction es as [|[k' v'] rest IH]; simpl.
  - now rewrite Hrefl.
  - destruct (same k' k) eqn:E; simpl; rewrite E; auto.
Qed.

Lemma entries_get_set_other (es : list (K * V)) (k k2 : K) (v : V) :
  same k k2 = false ->
  (forall k', same k' k = true -> same k' k2 = false) ->
  entries_get same (entries_set same es k v) k2 = entries_get same es k2.
Proof.
  intros Hne Hsep. induction es as [|[k' v'] rest IH]; simpl.
  - now rewrite Hne.
  - destruct (same k' k) eqn:E; simpl.
    + now rewrite (Hsep _ E).
    + now rewrite IH.
Qed.

Lemma entries_set_In (es : list (K * V)) (k : K) (v : V) (k0 : K) (v0 : V) :
  In (k0, v0) (entries_set same es k v) ->
  In (k0, v0) es \/ (v0 = v /\ (k0 = k \/ same k0 k = true)).
Proof.
  induction es as [|[k' v'] rest IH]; simpl.
  - intros [H|[]]. inversion H; subst. right; auto.
  - destruct (same k' k) eqn:E; simpl.
    + intros [H|H]; [inversion H; subst; right; auto | left; auto].
    + intros [H|H]; [left; auto | destruct (IH H) as [?|?]; auto].
Qed.

Lemma entries_set_keys (es : list (K * V)) (k : K) (v : V) :
  same k k = true ->
  (forall k', same k' k = true -> k' = k) ->
  map fst (entries_set same es k v) = map fst es
  \/ (map fst (entries_set same es k v) = map fst es ++ [k] /\ ~ In k (map fst es)).
Proof.
  intros Hrefl Heq. induction es as [|[k' v'] rest IH]; simpl.
  - right. split; [reflexivity | intros []].
  - destruct (same k' k) eqn:E; simpl; [now left|].
    destruct IH as [IH | [IH Hnotin]].
    + left. now rewrite IH.
    + right. split; [now rewrite IH|].
      intros [H | H]; [subst; congruence | contradiction].
Qed.

Lemma entries_get_NoDup (es : list (K * V)) (k : K) (v : V) :
  same k k = true ->
  (forall k', same k' k = true -> k' = k) ->
  NoDup (map fst es) ->
  In (k, v) es ->
  entries_get same es k = Some v.
Proof.
  intros Hrefl Heq. induction es as [|[k' v'] rest IH]; simpl; intros Hnd Hin; [contradiction|].
  inversion Hnd as [|? ? Hnotin Hnd']; subst.
  destruct Hin as [H | H].
  - inversion H; subst. now rewrite Hrefl.
  - destruct (same k' k) eqn:E; [|now apply IH].
    apply Heq in E. subst. exfalso. apply Hnotin.
    change k with (fst (k, v)). now apply in_map.
Qed.

Lemma entries_get_In (es : list (K * V)) (k : K) (v : V) :
  entries_get same es k = Some v ->
  exists k', In (k', v) es /\ same k' k = true.
Proof.
  induction es as [|[k' v'] rest IH]; simpl; [discriminate|].
  destruct (same k' k) eqn:E.
  - intros H; inversion H; subst. exists k'; auto.
  - intros H. destruct (IH H) as (k0 & Hin & Hk). exists k0; auto.
Qed.
End EntriesFacts.

(** ** [getIn] and [setIn] *)

Section PathFacts.
Variable accessor : AccessorFn.
Variable setter : SetterFn.
Variable defaultValue : unit -> value.

Lemma getIn_fold_bind (path : FieldPath) (r : res value) :
  fold_left (getIn_step accessor) path r = (o <- r ;; getIn accessor o path).
Proof.
  revert r. induction path as [|k rest IH]; intros r; simpl.
  - destruct r; reflexivity.
  - rewrite IH. destruct r; simpl; auto.
    unfold getIn at 2. simpl. now rewrite IH.
Qed.

Lemma getIn_nil (obj : value) : getIn accessor obj [] = Ok obj.
Proof. reflexivity. Qed.

Lemma getIn_cons (obj : value) (key : FieldName) (rest : FieldPath) :
  getIn accessor obj (key :: rest) =
  (r <- (if is_nullish obj then Ok VUndef else accessor obj key) ;;
   getIn accessor r rest).
Proof.
  unfold getIn at 1. simpl. now rewrite getIn_fold_bind.
Qed.

Lemma getIn_app (obj : value) (p q : FieldPath) :
  getIn accessor obj (p ++ q) = (r <- getIn accessor obj p ;; getIn accessor r q).
Proof.
  unfold getIn at 1 2. rewrite fold_left_app. apply getIn_fold_bind.
Qed.

Lemma getIn_undefined (path : FieldPath) :
  getIn accessor VUndef path = Ok VUndef.
Proof.
  induction path as [|k rest IH]; [reflexivity|].
  rewrite getIn_cons. simpl. exact IH.
Qed.

(** For a path that is not empty [setIn] is the walk. *)
Lemma setIn_nonempty (obj : value) (path : FieldPath) (v : value) :
  path <> [] ->
  setIn accessor setter defaultValue obj path v =
  setIn_walk accessor setter defaultValue obj (removelast path) (last_key path) v.
Proof.
  intros Hne. destruct path as [|k [|k2 rest]]; [congruence| |]; reflexivity.
Qed.

(** What is written is read back, when every write of [setter] is read
    back by [accessor]. *)
Hypothesis setter_accessor : forall obj key v obj',
  setter obj key v = Ok obj' ->
  is_nullish obj' = false /\ accessor obj' key = Ok v.

Lemma setIn_walk_getIn (init : FieldPath) (lastKey : FieldName) (v : value) :
  forall obj obj',
    setIn_walk accessor setter defaultValue obj init lastKey v = Ok obj' ->
    getIn accessor obj' (init ++ [lastKey]) = Ok v.
Proof.
  induction init as [|key rest IH]; intros obj obj' H; simpl in *.
  - rewrite getIn_cons. destruct (setter_accessor _ _ _ _ H) as [Hn Ha].
    rewrite Hn, Ha. reflexivity.
  - destruct (accessor obj key) as [keyValue| |]; simpl in H; try discriminate.
    assert (Hend : forall child result,
               setIn_walk accessor setter defaultValue child rest lastKey v = Ok result ->
               forall o, setter o key result = Ok obj' ->
               getIn accessor obj' (key :: rest ++ [lastKey]) = Ok v).
    { intros child result Hw o Hs. rewrite getIn_cons.
      destruct (setter_accessor _ _ _ _ Hs) as [Hn Ha]. rewrite Hn, Ha. simpl.
      eapply IH; eauto. }
    destruct (is_undefined keyValue).
    + destruct (setter obj key (defaultValue tt)) as [o1| |]; simpl in H; try discriminate.
      destruct (setIn_walk accessor setter defaultValue (defaultValue tt) rest lastKey v)
        as [child| |] eqn:Hw; simpl in H; try discriminate.
      eapply Hend; eauto.
    + destruct (setIn_walk accessor setter defaultValue keyValue rest lastKey v)
        as [child| |] eqn:Hw; simpl in H; try discriminate.
      eapply Hend; eauto.
Qed.

Lemma removelast_last_key (path : FieldPath) :
  path <> [] -> removelast path ++ [last_key path] = path.
Proof.
  intros Hne. unfold last_key. symmetry. now apply app_removelast_last.
Qed.

Lemma setIn_getIn (obj obj' : value) (path : FieldPath) (v : value) :
  path <> [] ->
  setIn accessor setter defaultValue obj path v = Ok obj' ->
  getIn accessor obj' path = Ok v.
Proof.
  intros Hne H. rewrite setIn_nonempty in H by assumption.
  apply setIn_walk_getIn in H. now rewrite removelast_last_key in H.
Qed.
End PathFacts.

(** ** Round trip through plain objects and arrays *)

Lemma PropertyKey_eqb_refl (k : PropertyKey) : PropertyKey_eqb k k = true.
Proof.
  destruct k; simpl; [apply String.eqb_refl | apply Nat.eqb_refl].
Qed.

Lemma nth_array_store (elems : list value) (i : nat) (v : value) :
  nth i (array_store elems i v) VUndef = v.
Proof.
  revert elems. induction i as [|j IH]; intros [|e rest]; simpl; auto.
Qed.

Lemma objSetter_objGetter (obj : value) (key : FieldName) (v obj' : value) :
  objSetter obj key v = Ok obj' ->
  is_nullish obj' = false /\ objGetter obj' key = Ok v.
Proof.
  unfold objSetter, objGetter.
  destruct obj; try discriminate;
    try (destruct (PropertyKey_eqb (ToPropertyKey key) (KStr "__proto__")); discriminate).
  - destruct (PropertyKey_eqb (ToPropertyKey key) (KStr "__proto__")); [discriminate|].
    intros H; inversion H; subst; clear H. split; [reflexivity|].
    now rewrite entries_get_set_same by apply PropertyKey_eqb_refl.
  - destruct (array_index (ToPropertyKey key)) as [i|] eqn:E; [|discriminate].
    intros H; inversion H; subst; clear H. split; [reflexivity|].
    simpl. now rewrite nth_array_store.
Qed.

Lemma holds_key_objSetter (obj : value) (key : FieldName) (v : value) :
  holds_key obj key = true ->
  exists obj', objSetter obj key v = Ok obj'
               /\ forall key', holds_key obj' key' = holds_key obj key'.
Proof.
  unfold holds_key, objSetter. destruct obj; try discriminate.
  - destruct (PropertyKey_eqb (ToPropertyKey key) (KStr "__proto__")); [discriminate|].
    intros _. eexists; split; reflexivity.
  - destruct (array_index (ToPropertyKey key)); [|discriminate].
    intros _. eexists; split; reflexivity.
Qed.

Lemma setIn_walk_settable (init : FieldPath) (lastKey : FieldName) (v : value) :
  forall obj,
    settable obj (init ++ [lastKey]) = true ->
    exists obj', setIn_walk objGetter objSetter newObject obj init lastKey v = Ok obj'.
Proof.
  induction init as [|key rest IH]; intros obj H.
  - simpl in H. rewrite andb_true_r in H.
    destruct (holds_key_objSetter _ _ v H) as (obj' & Hs & _). exists obj'. exact Hs.
  - change ((key :: rest) ++ [lastKey]) with (key :: (rest ++ [lastKey])) in H.
    simpl in H. apply andb_true_iff in H. destruct H as [Hk H].
    destruct (rest ++ [lastKey]) as [|k2 more] eqn:Erest.
    { destruct rest; discriminate. }
    rewrite <- Erest in *. clear Erest k2 more.
    assert (Hback : forall o child, (forall key', holds_key o key' = holds_key obj key') ->
                                    exists obj', objSetter o key child = Ok obj').
    { intros o child Ho. rewrite <- Ho in Hk.
      destruct (holds_key_objSetter _ _ child Hk) as (obj' & Hs & _). eauto. }
    simpl. destruct (objGetter obj key) as [keyValue| |]; try discriminate. simpl.
    destruct (is_undefined keyValue) eqn:Eu.
    + destruct (holds_key_objSetter _ _ (newObject tt) Hk) as (o1 & Hs & Ho1).
      rewrite Hs. simpl.
      destruct (IH _ H) as (child & Hc). rewrite Hc. simpl.
      apply (Hback o1 child Ho1).
    + destruct (IH _ H) as (child & Hc). rewrite Hc. simpl.
      apply (Hback obj child). reflexivity.
Qed.

(** C4 (amended): for every path that is not empty, below an object where
    what the path meets, as far as it exists, is plain objects and arrays
    addressed by index, [setIn] with a factory of empty objects returns, and
    [getIn] then reads the value that was set; the segments that were
    missing are created on the way. *)
Theorem setIn_getIn_roundtrip (obj : value) (path : FieldPath) (v : value) :
  settable obj path = true ->
  exists obj',
    setIn objGetter objSetter newObject obj path v = Ok obj'
    /\ getIn objGetter obj' path = Ok v.
Proof.
  intros H.
  assert (Hne : path <> []) by (destruct path; [discriminate | congruence]).
  rewrite setIn_nonempty by assumption.
  rewrite <- (removelast_last_key path Hne) in H.
  destruct (setIn_walk_settable _ _ v _ H) as (obj' & Hw).
  exists obj'. split; [exact Hw|].
  rewrite <- (removelast_last_key path Hne) at 1.
  eapply setIn_walk_getIn; [apply objSetter_objGetter | exact Hw].
Qed.

Lemma setIn_getIn_roundtrip_witness :
  settable (VObj []) [FStr "a"; FStr "b"; FStr "c"] = true
  /\ exists obj',
      setIn objGetter objSetter newObject (VObj []) [FStr "a"; FStr "b"; FStr "c"]
            (VNum 1) = Ok obj'
      /\ getIn objGetter obj' [FStr "a"; FStr "b"; FStr "c"] = Ok (VNum 1).
Proof.
  split; [reflexivity|].
  apply (setIn_getIn_roundtrip (VObj []) [FStr "a"; FStr "b"; FStr "c"] (VNum 1)).
  reflexivity.
Defined.

(** C4, as stated, fails on the empty path: [setIn] then writes the
    property ["undefined"] of the object, and [getIn] returns the object. *)
Lemma setIn_getIn_empty_path :
  setIn objGetter objSetter newObject (VObj []) [] (VNum 1)
  = Ok (VObj [(KStr "undefined", VNum 1)])
  /\ getIn objGetter (VObj [(KStr "undefined", VNum 1)]) []
     = Ok (VObj [(KStr "undefined", VNum 1)])
  /\ getIn objGetter (VObj [(KStr "undefined", VNum 1)]) [] <> Ok (VNum 1).
Proof.
  repeat split; try reflexivity. discriminate.
Qed.

(** ** The trie of a [FieldsMap] *)

Section TrieFacts.
Import FieldsMap.

Lemma SameValueZero_normalize (k : value) (key : FieldName) :
  SameValueZero k (normalize key) = true -> k = normalize key.
Proof.
  destruct key; destruct k; simpl; try discriminate; intros H.
  - apply String.eqb_eq in H. now subst.
  - apply String.eqb_eq in H. now rewrite H.
  - apply Nat.eqb_eq in H. now subst.
Qed.

Lemma SameValueZero_normalize_refl (key : FieldName) :
  SameValueZero (normalize key) (normalize key) = true.
Proof.
  destruct key; simpl; auto using String.eqb_refl, Nat.eqb_refl.
Qed.

Lemma SameValueZero_normalize_neq (a b : FieldName) :
  normalize a <> normalize b ->
  SameValueZero (normalize a) (normalize b) = false.
Proof.
  intros Hne. destruct (SameValueZero (normalize a) (normalize b)) eqn:E; [|reflexivity].
  apply SameValueZero_normalize in E. contradiction.
Qed.

Lemma normalize_selfRef_neq (key : FieldName) :
  key <> selfRef -> normalize key <> normalize selfRef.
Proof.
  intros Hne. destruct key; simpl; try discriminate.
  intros H. inversion H. subst. now apply Hne.
Qed.

Lemma Map_get_set_same (es : list (value * value)) (key : FieldName) (v : value) :
  Map_get (Map_set es (normalize key) v) (normalize key) = v.
Proof.
  unfold Map_get, Map_set.
  now rewrite entries_get_set_same by apply SameValueZero_normalize_refl.
Qed.

Lemma Map_get_set_other (es : list (value * value)) (a b : FieldName) (v : value) :
  normalize a <> normalize b ->
  Map_get (Map_set es (normalize a) v) (normalize b) = Map_get es (normalize b).
Proof.
  intros Hne. unfold Map_get, Map_set. rewrite entries_get_set_other; auto.
  - now apply SameValueZero_normalize_neq.
  - intros k Hk. apply SameValueZero_normalize in Hk. subst.
    now apply SameValueZero_normalize_neq.
Qed.

Lemma no_method_fails {A : Type} (obj : value) (method : string) (a : A) :
  no_method obj method <> Ok a.
Proof.
  unfold no_method. destruct obj; try discriminate.
  destruct (entries_get PropertyKey_eqb props (KStr method)); discriminate.
Qed.

Lemma mapSetter_inv (map : value) (key : FieldName) (v map' : value) :
  mapSetter map key v = Ok map' ->
  exists es, map = VMap es /\ map' = VMap (Map_set es (normalize key) v).
Proof.
  destruct map; cbn [mapSetter mapGetter]; intros H;
    try (exfalso; exact (no_method_fails _ _ _ H)).
  inversion H. eauto.
Qed.

Lemma mapGetter_inv (map : value) (key : FieldName) (r : value) :
  mapGetter map key = Ok r ->
  exists es, map = VMap es /\ r = Map_get es (normalize key).
Proof.
  destruct map; cbn [mapSetter mapGetter]; intros H;
    try (exfalso; exact (no_method_fails _ _ _ H)).
  inversion H. eauto.
Qed.

Lemma mapSetter_mapGetter (map : value) (key : FieldName) (v map' : value) :
  mapSetter map key v = Ok map' ->
  is_nullish map' = false /\ mapGetter map' key = Ok v.
Proof.
  intros H. apply mapSetter_inv in H. destruct H as (es & -> & ->).
  split; [reflexivity|]. simpl. now rewrite Map_get_set_same.
Qed.

Lemma getIn_empty_map (path : FieldPath) :
  path <> [] -> getIn mapGetter (VMap []) path = Ok VUndef.
Proof.
  destruct path as [|k rest]; [congruence|]. intros _.
  rewrite getIn_cons. simpl. apply getIn_undefined.
Qed.

Lemma set_walk (fields : value) (path : FieldPath) (v : value) :
  set fields path v = setIn_walk mapGetter mapSetter newMap fields path selfRef v.
Proof.
  unfold set. rewrite setIn_nonempty by (destruct path; discriminate).
  unfold last_key. now rewrite removelast_last, last_last.
Qed.

(** *** The shape is kept *)

Lemma trie_empty : trie empty.
Proof.
  constructor; [constructor | intros k v [] | intros k v []].
Qed.

Lemma NoDup_snoc {A : Type} (l : list A) (a : A) :
  NoDup l -> ~ In a l -> NoDup (l ++ [a]).
Proof.
  induction l as [|b rest IH]; simpl; intros Hnd Hnotin.
  - constructor; [intros [] | constructor].
  - inversion Hnd as [|? ? Hb Hrest]; subst. constructor.
    + intros Hin. apply in_app_or in Hin. destruct Hin as [Hin | [Hin | []]]; [contradiction|].
      subst. apply Hnotin. now left.
    + apply IH; [assumption|]. intros Hin. apply Hnotin. now right.
Qed.

Lemma trie_Map_set (es : list (value * value)) (key : FieldName) (v : value) :
  trie (VMap es) ->
  (key <> selfRef -> trie v) ->
  trie (VMap (Map_set es (normalize key) v)).
Proof.
  intros Ht Hv. inversion Ht as [es' Hnd Hkeys Hes]; subst. constructor.
  - destruct (entries_set_keys SameValueZero es (normalize key) v
                (SameValueZero_normalize_refl key)
                (fun k' => SameValueZero_normalize k' key)) as [E | [E Hnotin]];
      unfold Map_set; rewrite E; [assumption | now apply NoDup_snoc].
  - intros k0 v0 Hin. apply entries_set_In in Hin.
    destruct Hin as [Hin | [_ [Hk | Hk]]].
    + eapply Hkeys; eauto.
    + eauto.
    + apply SameValueZero_normalize in Hk. eauto.
  - intros k0 v0 Hin Hk0.
    assert (Hkey : k0 = normalize key -> trie v).
    { intros ->. apply Hv. intros ->. now apply Hk0. }
    apply entries_set_In in Hin. destruct Hin as [Hin | [-> [Hk | Hk]]].
    + eapply Hes; eauto.
    + auto.
    + apply SameValueZero_normalize in Hk. auto.
Qed.

Lemma trie_Map_get (es : list (value * value)) (key : FieldName) :
  trie (VMap es) ->
  key <> selfRef ->
  Map_get es (normalize key) = VUndef \/ trie (Map_get es (normalize key)).
Proof.
  intros Ht Hkey. inversion Ht as [es' Hnd Hkeys Hes]; subst. unfold Map_get.
  destruct (entries_get SameValueZero es (normalize key)) as [v|] eqn:E; [|now left].
  right. apply entries_get_In in E. destruct E as (k' & Hin & Hk).
  apply SameValueZero_normalize in Hk. subst.
  eapply Hes; eauto. now apply normalize_selfRef_neq.
Qed.

Lemma setIn_walk_trie (v : value) (init : FieldPath) :
  forall node,
    trie node ->
    ~ In selfRef init ->
    exists node',
      setIn_walk mapGetter mapSetter newMap node init selfRef v = Ok node'
      /\ trie node'.
Proof.
  induction init as [|a rest IH]; intros node Ht Hi.
  - inversion Ht as [es Hnd Hkeys Hes]; subst. simpl. eexists; split; [reflexivity|].
    apply (trie_Map_set es selfRef v); [exact Ht | congruence].
  - assert (Ha : a <> selfRef) by (intros ->; apply Hi; now left).
    assert (Hrest : ~ In selfRef rest) by (intros H; apply Hi; now right).
    inversion Ht as [es Hnd Hkeys Hes]; subst. simpl.
    destruct (is_undefined (Map_get es (normalize a))) eqn:Eu.
    + destruct (IH (newMap tt) trie_empty Hrest) as (child & Hc & Htc).
      rewrite Hc. simpl. eexists; split; [reflexivity|].
      apply trie_Map_set; auto. apply trie_Map_set; auto. intros _. apply trie_empty.
    + destruct (trie_Map_get es a Ht Ha) as [Hu | Hchild].
      { rewrite Hu in Eu. discriminate. }
      destruct (IH _ Hchild Hrest) as (child & Hc & Htc).
      rewrite Hc. simpl. eexists; split; [reflexivity|].
      apply trie_Map_set; auto.
Qed.

(** *** What a [set] leaves alone *)

Lemma setIn_walk_frame (v : value) (init : FieldPath) :
  forall node node' q,
    setIn_walk mapGetter mapSetter newMap node init selfRef v = Ok node' ->
    ~ In selfRef init ->
    ~ In selfRef q ->
    map normalize q <> map normalize init ->
    getIn mapGetter node' (q ++ [selfRef]) = getIn mapGetter node (q ++ [selfRef]).
Proof.
  induction init as [|a rest IH]; intros node node' q Hw Hi Hq Hne.
  - destruct q as [|b rq]; [now contradiction Hne|].
    assert (Hb : b <> selfRef) by (intros ->; apply Hq; now left).
      cbn [setIn_walk] in Hw. apply mapSetter_inv in Hw. destruct Hw as (entries & -> & ->).
      simpl app. rewrite !getIn_cons. simpl.
    rewrite (Map_get_set_other entries selfRef b); [reflexivity|].
    now apply not_eq_sym, normalize_selfRef_neq.
  - assert (Ha : a <> selfRef) by (intros ->; apply Hi; now left).
    assert (Hrest : ~ In selfRef rest) by (intros H; apply Hi; now right).
      cbn [setIn_walk] in Hw.
      destruct (mapGetter node a) as [keyValue| |] eqn:Eg; try discriminate.
      apply mapGetter_inv in Eg. destruct Eg as (es & -> & ->). simpl in Hw.
      assert (Hmid : exists es1 kv child,
               setIn_walk mapGetter mapSetter newMap kv rest selfRef v = Ok child
               /\ node' = VMap (Map_set es1 (normalize a) child)
               /\ (forall b, normalize a <> normalize b ->
                             Map_get es1 (normalize b) = Map_get es (normalize b))
               /\ (forall path, path <> [] ->
                                getIn mapGetter kv path
                                = getIn mapGetter (Map_get es (normalize a)) path)).
    { destruct (is_undefined (Map_get es (normalize a))) eqn:Eu.
      - destruct (setIn_walk mapGetter mapSetter newMap (newMap tt) rest selfRef v)
          as [child| |] eqn:Hc; simpl in Hw; try discriminate.
        inversion Hw; subst; clear Hw.
        exists (Map_set es (normalize a) (newMap tt)), (newMap tt), child.
        repeat split; auto.
        + intros b Hb. now apply Map_get_set_other.
        + intros path Hp. destruct (Map_get es (normalize a)); try discriminate.
          rewrite getIn_undefined. now apply getIn_empty_map.
      - destruct (setIn_walk mapGetter mapSetter newMap (Map_get es (normalize a))
                             rest selfRef v) as [child| |] eqn:Hc;
          simpl in Hw; try discriminate.
        inversion Hw; subst; clear Hw.
        exists es, (Map_get es (normalize a)), child. repeat split; auto. }
    destruct Hmid as (es1 & kv & child & Hc & -> & Hother & Hkv). clear Hw.
    destruct q as [|b rq].
    + simpl app. rewrite !getIn_cons. simpl.
      assert (Hs : normalize a <> normalize selfRef) by now apply normalize_selfRef_neq.
      rewrite (Map_get_set_other es1 a selfRef) by assumption.
      now rewrite (Hother selfRef) by assumption.
    + assert (Hb : b <> selfRef) by (intros ->; apply Hq; now left).
      assert (Hrq : ~ In selfRef rq) by (intros H; apply Hq; now right).
      simpl app. rewrite !getIn_cons. simpl.
      destruct (SameValueZero (normalize a) (normalize b)) eqn:E.
      * apply SameValueZero_normalize in E. rewrite <- E.
        rewrite Map_get_set_same.
        rewrite (IH kv child rq Hc Hrest Hrq).
        -- apply Hkv. destruct rq; discriminate.
        -- intros H. apply Hne. simpl. now rewrite H, E.
      * assert (Hab : normalize a <> normalize b).
        { intros H. rewrite H, SameValueZero_normalize_refl in E. discriminate. }
        rewrite Map_get_set_other by assumption.
        now rewrite Hother by assumption.
Qed.
End TrieFacts.

Section TrieReads.
Import FieldsMap.

Lemma getIn_trie (path : FieldPath) :
  forall node,
    trie node ->
    ~ In selfRef path ->
    exists r, getIn mapGetter node path = Ok r /\ (r = VUndef \/ trie r).
Proof.
  induction path as [|a rest IH]; intros node Ht Hp.
  - exists node. split; [reflexivity | now right].
  - assert (Ha : a <> selfRef) by (intros ->; apply Hp; now left).
    assert (Hrest : ~ In selfRef rest) by (intros H; apply Hp; now right).
    inversion Ht as [es Hnd Hkeys Hes]; subst. rewrite getIn_cons. simpl.
    destruct (trie_Map_get es a Ht Ha) as [Hu | Hchild].
    + rewrite Hu, getIn_undefined. exists VUndef. auto.
    + now apply IH.
Qed.

Lemma get_total (fields : value) (path : FieldPath) :
  trie fields -> ~ In selfRef path -> exists v, get fields path = Ok v.
Proof.
  intros Ht Hp. unfold get. rewrite getIn_app.
  destruct (getIn_trie path fields Ht Hp) as (r & Hr & [-> | Htr]); rewrite Hr; simpl.
  - eexists; reflexivity.
  - inversion Htr; subst. eexists; reflexivity.
Qed.

Lemma mapGetter_normalize (map : value) (a b : FieldName) :
  normalize a = normalize b -> mapGetter map a = mapGetter map b.
Proof.
  intros H. unfold mapGetter. now rewrite H.
Qed.

Lemma mapSetter_normalize (map : value) (a b : FieldName) (v : value) :
  normalize a = normalize b -> mapSetter map a v = mapSetter map b v.
Proof.
  intros H. unfold mapSetter. now rewrite H.
Qed.

Lemma getIn_normalize (p : FieldPath) :
  forall q node,
    map normalize p = map normalize q ->
    getIn mapGetter node p = getIn mapGetter node q.
Proof.
  induction p as [|a rest IH]; intros [|b rq] node H; try discriminate; [reflexivity|].
  simpl in H. inversion H as [[Hab Hrest]].
  rewrite !getIn_cons, (mapGetter_normalize node a b Hab).
  destruct (if is_nullish node then Ok VUndef else mapGetter node b); simpl; auto.
Qed.

Lemma setIn_walk_normalize (v : value) (p : FieldPath) :
  forall q node,
    map normalize p = map normalize q ->
    setIn_walk mapGetter mapSetter newMap node p selfRef v
    = setIn_walk mapGetter mapSetter newMap node q selfRef v.
Proof.
  induction p as [|a rest IH]; intros [|b rq] node H; try discriminate; [reflexivity|].
  simpl in H. inversion H as [[Hab Hrest]]. simpl.
  rewrite (mapGetter_normalize node a b Hab).
  destruct (mapGetter node b) as [keyValue| |]; simpl; auto.
  destruct (is_undefined keyValue).
  - rewrite (mapSetter_normalize node a b _ Hab).
    destruct (mapSetter node b (newMap tt)); simpl; auto.
    rewrite (IH rq _ Hrest).
    destruct (setIn_walk mapGetter mapSetter newMap (newMap tt) rq selfRef v); simpl; auto.
    now apply mapSetter_normalize.
  - rewrite (IH rq _ Hrest).
    destruct (setIn_walk mapGetter mapSetter newMap keyValue rq selfRef v); simpl; auto.
    now apply mapSetter_normalize.
Qed.

Lemma normalize_canonical (key : FieldName) :
  normalize (canonical key) = normalize key.
Proof. destruct key; reflexivity. Qed.

Lemma canonical_normalize (p q : FieldPath) :
  map canonical p = map canonical q -> map normalize p = map normalize q.
Proof.
  intros H. apply (f_equal (map normalize)) in H. rewrite !map_map in H.
  rewrite (map_ext _ normalize normalize_canonical p) in H.
  now rewrite (map_ext _ normalize normalize_canonical q) in H.
Qed.

Lemma keys_without_selfRef (fields : value) (path : FieldPath) (ks : list value) :
  keys fields path = Ok ks -> ~ In (normalize selfRef) ks.
Proof.
  unfold keys. destruct (getIn mapGetter fields path) as [m| |]; simpl; try discriminate.
  destruct (truthy m); simpl.
  - destruct m; intros H; try (exfalso; exact (no_method_fails _ _ _ H)).
    inversion H; subst; clear H.
    intros Hin. apply filter_In in Hin. destruct Hin as [_ Hf]. discriminate.
  - intros H; inversion H; subst. intros [].
Qed.

(** [delete] changes nothing when the payload of the parent path is not a
    [Map], whatever is stored at the path itself. *)
Lemma delete_noop (fields : value) (path : FieldPath) (reference : value) :
  get fields (removelast path) = Ok reference ->
  isMap reference = false ->
  delete fields path = Ok fields.
Proof.
  intros Hg Hm. unfold delete. rewrite Hg. simpl. now rewrite Hm.
Qed.

Lemma removelast_notin (path : FieldPath) :
  ~ In selfRef path -> ~ In selfRef (removelast path).
Proof.
  intros Hp Hin. apply Hp. destruct path as [|a rest]; [exact Hin|].
  assert (Hne : a :: rest <> []) by discriminate.
  rewrite (app_removelast_last selfRef Hne). apply in_or_app. now left.
Qed.

Lemma trie_delete (fields : value) (path : FieldPath) :
  trie fields ->
  ~ In selfRef path ->
  exists fields', delete fields path = Ok fields' /\ trie fields'.
Proof.
  intros Ht Hp. apply removelast_notin in Hp.
  destruct (get_total fields _ Ht Hp) as (reference & Hg).
  unfold delete. rewrite Hg. simpl.
  destruct (isMap reference); [|exists fields; split; [reflexivity | assumption]].
  rewrite set_walk. now apply setIn_walk_trie.
Qed.
End TrieReads.

(** C8: on the trie of a [FieldsMap], [set(p, v)] returns; afterwards
    [get(p)] is [v] whatever was stored there, and [get(q)] is what it was
    for every other path [q], ancestors and descendants of [p] included;
    [keys] never lists the sentinel.  In particular after
    [set(["a","b"], 1)] and [set(["a"], 2)], [get(["a","b"])] is 1,
    [get(["a"])] is 2 and [keys(["a"])] is [["b"]]. *)
Theorem set_stores_exactly (fields : value) (p : FieldPath) (v : value) :
  trie fields ->
  ~ In selfRef p ->
  (exists fields',
      FieldsMap.set fields p v = Ok fields'
      /\ trie fields'
      /\ FieldsMap.get fields' p = Ok v
      /\ (forall q,
             ~ In selfRef q ->
             map FieldsMap.normalize q <> map FieldsMap.normalize p ->
             FieldsMap.get fields' q = FieldsMap.get fields q)
      /\ (forall q ks,
             FieldsMap.keys fields' q = Ok ks -> ~ In (FieldsMap.normalize selfRef) ks))
  /\ (exists m1 m2,
         FieldsMap.set FieldsMap.empty [FStr "a"; FStr "b"] (VNum 1) = Ok m1
         /\ FieldsMap.set m1 [FStr "a"] (VNum 2) = Ok m2
         /\ FieldsMap.get m2 [FStr "a"; FStr "b"] = Ok (VNum 1)
         /\ FieldsMap.get m2 [FStr "a"] = Ok (VNum 2)
         /\ FieldsMap.keys m2 [FStr "a"] = Ok [VStr "b"]).
Proof.
  intros Ht Hp. split.
  - destruct (setIn_walk_trie v p fields Ht Hp) as (fields' & Hw & Ht').
    exists fields'. rewrite set_walk. repeat split; auto.
    + unfold FieldsMap.get.
      eapply setIn_walk_getIn; [apply mapSetter_mapGetter | exact Hw].
    + intros q Hq Hne. unfold FieldsMap.get. eapply setIn_walk_frame; eauto.
    + intros q ks. apply keys_without_selfRef.
  - do 2 eexists. repeat split; reflexivity.
Qed.

Lemma set_stores_exactly_witness :
  trie FieldsMap.empty
  /\ ~ In selfRef [FStr "a"; FNum 0]
  /\ exists fields',
      FieldsMap.set FieldsMap.empty [FStr "a"; FNum 0] (VStr "x") = Ok fields'
      /\ FieldsMap.get fields' [FStr "a"; FNum 0] = Ok (VStr "x").
Proof.
  assert (Ht : trie FieldsMap.empty) by apply trie_empty.
  assert (Hp : ~ In selfRef [FStr "a"; FNum 0]).
  { simpl. intros [H | [H | []]]; discriminate. }
  split; [exact Ht | split; [exact Hp|]].
  destruct (set_stores_exactly FieldsMap.empty [FStr "a"; FNum 0] (VStr "x") Ht Hp)
    as [(fields' & Hs & _ & Hg & _) _].
  exists fields'. split; assumption.
Defined.

(** C7: [get] and [set] look a segment up under [String(key)] unless it is
    a symbol: a string under itself, the number 0 under ["0"], 42 under
    ["42"], different numbers under different strings.  So two paths that
    differ only in writing an integer as a number or as its digits are the
    same path to both, and what is set through one is read through the
    other: after [set([0], v)], [get(["0"])] is [v], and [get(["00"])] is
    still [undefined].  The sentinel is a symbol: it stays itself, and no
    string or number is normalised to it. *)
Theorem segments_normalized (fields : value) (p q : FieldPath) (v : value) :
  trie fields ->
  ~ In selfRef p ->
  forallb safe_segment p = true ->
  forallb safe_segment q = true ->
  map canonical p = map canonical q ->
  FieldsMap.get fields p = FieldsMap.get fields q
  /\ FieldsMap.set fields p v = FieldsMap.set fields q v
  /\ (exists fields',
         FieldsMap.set fields p v = Ok fields' /\ FieldsMap.get fields' q = Ok v)
  /\ (forall s, FieldsMap.normalize (FStr s) = VStr s)
  /\ (forall n, FieldsMap.normalize (FNum n) = FieldsMap.normalize (FStr (String_of_number n)))
  /\ (FieldsMap.normalize (FNum 0) = VStr "0"
      /\ FieldsMap.normalize (FNum 42) = VStr "42"
      /\ canonical (FNum 42) = FStr "42")
  /\ (forall n m, FieldsMap.normalize (FNum n) = FieldsMap.normalize (FNum m) -> n = m)
  /\ (exists fields',
         FieldsMap.set FieldsMap.empty [FNum 0] v = Ok fields'
         /\ FieldsMap.get fields' [FStr "0"] = Ok v
         /\ FieldsMap.get fields' [FStr "00"] = Ok VUndef)
  /\ FieldsMap.normalize selfRef = VSym 0
  /\ (forall key, FieldsMap.normalize key = FieldsMap.normalize selfRef -> key = selfRef).
Proof.
  intros Ht Hp _ _ Hpq. apply canonical_normalize in Hpq.
  assert (Hget : forall m, FieldsMap.get m p = FieldsMap.get m q).
  { intros m. unfold FieldsMap.get. apply getIn_normalize.
    rewrite !map_app. now rewrite Hpq. }
  split; [apply Hget|].
  split; [rewrite !set_walk; now apply setIn_walk_normalize|].
  split.
  { destruct (setIn_walk_trie v p fields Ht Hp) as (fields' & Hw & _).
    exists fields'. rewrite set_walk. split; [exact Hw|].
    rewrite <- Hget. unfold FieldsMap.get.
    eapply setIn_walk_getIn; [apply mapSetter_mapGetter | exact Hw]. }
  split; [reflexivity|]. split; [reflexivity|].
  split; [repeat split; reflexivity|].
  split.
  { intros n m H. simpl in H. inversion H as [Hs].
    unfold String_of_number in Hs.
    apply (f_equal NilZero.uint_of_string) in Hs.
    assert (Hnil : forall k, N.to_uint k <> Decimal.Nil).
    { intros [|k]; [discriminate | apply DecimalPos.Unsigned.to_uint_nonnil]. }
    rewrite !NilZero.usu in Hs by apply Hnil.
    inversion Hs as [Hu]. now apply DecimalN.Unsigned.to_uint_inj. }
  split; [eexists; repeat split; reflexivity|].
  split; [reflexivity|].
  intros [s|n|y]; simpl; try discriminate. intros H. now inversion H.
Qed.

Lemma segments_normalized_witness :
  trie FieldsMap.empty
  /\ ~ In selfRef [FNum 0]
  /\ forallb safe_segment [FNum 0] = true
  /\ forallb safe_segment [FStr "0"] = true
  /\ map canonical [FNum 0] = map canonical [FStr "0"]
  /\ exists fields',
      FieldsMap.set FieldsMap.empty [FNum 0] (VStr "x") = Ok fields'
      /\ FieldsMap.get fields' [FStr "0"] = Ok (VStr "x").
Proof.
  assert (Ht : trie FieldsMap.empty) by apply trie_empty.
  assert (Hp : ~ In selfRef [FNum 0]).
  { simpl. intros [H | []]. discriminate. }
  assert (Hsp : forallb safe_segment [FNum 0] = true) by reflexivity.
  assert (Hsq : forallb safe_segment [FStr "0"] = true) by reflexivity.
  assert (Hc : map canonical [FNum 0] = map canonical [FStr "0"]) by reflexivity.
  split; [exact Ht | split; [exact Hp | split; [exact Hsp | split; [exact Hsq |
    split; [exact Hc|]]]]].
  destruct (segments_normalized FieldsMap.empty [FNum 0] [FStr "0"] (VStr "x")
                                Ht Hp Hsp Hsq Hc)
    as (_ & _ & H & _).
  exact H.
Defined.

(** C1: after [set(["a","b"], 1)] the call [delete(["a","b"])] removes
    nothing: [reference] is the payload of [["a"]], which is no [Map], and
    [get(["a","b"])] is still 1. *)
Theorem delete_leaves_entry :
  exists m,
    FieldsMap.set FieldsMap.empty [FStr "a"; FStr "b"] (VNum 1) = Ok m
    /\ FieldsMap.delete m [FStr "a"; FStr "b"] = Ok m
    /\ FieldsMap.get m [FStr "a"; FStr "b"] = Ok (VNum 1)
    /\ FieldsMap.has m [FStr "a"; FStr "b"] = Ok true.
Proof.
  eexists. repeat split; reflexivity.
Qed.

(** C3: a payload that is falsy is left out: after [set(["a"], 0)],
    [get(["a"])] is 0 and [has(["a"])] holds, yet [getAllNested(["a"])] is
    empty. *)
Theorem getAllNested_skips_falsy :
  exists m,
    FieldsMap.set FieldsMap.empty [FStr "a"] (VNum 0) = Ok m
    /\ FieldsMap.get m [FStr "a"] = Ok (VNum 0)
    /\ FieldsMap.has m [FStr "a"] = Ok true
    /\ FieldsMap.getAllNested m [FStr "a"] None = Ok [].
Proof.
  eexists. repeat split; reflexivity.
Qed.

(** ** The proxy *)

Lemma PropertyKey_eqb_eq (a b : PropertyKey) :
  PropertyKey_eqb a b = true <-> a = b.
Proof.
  destruct a, b; simpl; split; intros H; try discriminate.
  - apply String.eqb_eq in H. now subst.
  - inversion H. apply String.eqb_refl.
  - apply Nat.eqb_eq in H. now subst.
  - inversion H. apply Nat.eqb_refl.
Qed.

Lemma PropertyKey_eqb_neq (a b : PropertyKey) :
  a <> b -> PropertyKey_eqb a b = false.
Proof.
  intros Hne. destruct (PropertyKey_eqb a b) eqn:E; [|reflexivity].
  apply PropertyKey_eqb_eq in E. contradiction.
Qed.

Lemma createProxy_inv (identifier : symbol) (form : value) (prevPath : FieldPath)
      (p : Proxy) :
  createProxy identifier form prevPath = Ok p ->
  exists parent,
    getIn objGetter form prevPath = Ok parent
    /\ p = mkProxy identifier form prevPath parent.
Proof.
  unfold createProxy. destruct (getIn objGetter form prevPath) as [parent| |];
    simpl; try discriminate.
  intros H; inversion H. eauto.
Qed.

(** The child proxy stands for the value that was just read. *)
Lemma createProxy_child (identifier : symbol) (form : value) (prevPath : FieldPath)
      (parent : value) (key : FieldName) (v : value) :
  getIn objGetter form prevPath = Ok parent ->
  objGetter parent key = Ok v ->
  createProxy identifier form (prevPath ++ [key])
  = Ok (mkProxy identifier form (prevPath ++ [key]) v).
Proof.
  intros Hp Hv. unfold createProxy. rewrite getIn_app, Hp. simpl.
  rewrite getIn_cons.
  assert (Hn : is_nullish parent = false) by (destruct parent; auto; discriminate).
  rewrite Hn, Hv. reflexivity.
Qed.

(** C5: through a proxy, reading a property whose value is an array or a
    plain object calls [onAccess] not at all and returns the proxy of the
    longer path; reading any other property calls [onAccess] once, with the
    path of the proxy followed by the property.  On
    [{user: {name: "x", age: 3}}], [facade.user.name] records
    [["user","name"]] and nothing else, [facade.user] alone nothing. *)
Theorem proxy_read_tracking {S : Type} (onAccess : FieldPath -> S -> S)
        (identifier : symbol) (form : value) (prevPath : FieldPath)
        (p : Proxy) (prop : PropertyKey) (v : value) (s : S) :
  createProxy identifier form prevPath = Ok p ->
  prop <> KSym identifier ->
  objGetter (parent p) (FieldName_of prop) = Ok v ->
  (isArray v || isPlainObject v = true ->
   proxy_get onAccess p prop s
   = Ok (GotProxy (mkProxy identifier form (prevPath ++ [FieldName_of prop]) v), s))
  /\ (isArray v || isPlainObject v = false ->
      proxy_get onAccess p prop s
      = Ok (if isFunction v then GotBound v p else GotValue v,
            onAccess (prevPath ++ [FieldName_of prop]) s))
  /\ (exists facade user,
         createProxy identifier example_snapshot [] = Ok facade
         /\ proxy_get push facade (KStr "user") [] = Ok (GotProxy user, [])
         /\ proxy_get push user (KStr "name") []
            = Ok (GotValue (VStr "x"), [[FStr "user"; FStr "name"]])).
Proof.
  intros Hc Hprop Hv.
  destruct (createProxy_inv _ _ _ _ Hc) as (par & Hpar & ->). simpl in Hv.
  repeat split.
  - intros Hk. unfold proxy_get. simpl.
    rewrite (PropertyKey_eqb_neq _ _ Hprop), Hv. simpl. rewrite Hk.
    now rewrite (createProxy_child identifier form prevPath par _ v Hpar Hv).
  - intros Hk. unfold proxy_get. simpl.
    rewrite (PropertyKey_eqb_neq _ _ Hprop), Hv. simpl. rewrite Hk.
    destruct (isFunction v); reflexivity.
  - do 2 eexists. repeat split; reflexivity.
Qed.

Lemma proxy_read_tracking_witness :
  createProxy 1 example_snapshot [FStr "user"]
  = Ok (mkProxy 1 example_snapshot [FStr "user"] example_user)
  /\ KStr "age" <> KSym 1
  /\ objGetter example_user (FStr "age") = Ok (VNum 3)
  /\ proxy_get push (mkProxy 1 example_snapshot [FStr "user"] example_user) (KStr "age") []
     = Ok (GotValue (VNum 3), [[FStr "user"; FStr "age"]]).
Proof.
  assert (Hc : createProxy 1 example_snapshot [FStr "user"]
               = Ok (mkProxy 1 example_snapshot [FStr "user"] example_user))
    by reflexivity.
  assert (Hk : KStr "age" <> KSym 1) by discriminate.
  assert (Hv : objGetter example_user (FStr "age") = Ok (VNum 3)) by reflexivity.
  split; [exact Hc | split; [exact Hk | split; [exact Hv|]]].
  destruct (proxy_read_tracking push 1 example_snapshot [FStr "user"] _ (KStr "age")
                                (VNum 3) [] Hc Hk Hv) as (_ & H & _).
  apply H. reflexivity.
Defined.

(** C2 (amended): reading the marker key on the proxy of a path returns the
    pair of the value found at that path in the snapshot, and the path; no
    access is recorded.  [field] takes that value for its argument and
    records the path. *)
Theorem marker_returns_parent {S : Type} (onAccess : FieldPath -> S -> S)
        (identifier : symbol) (form : value) (prevPath : FieldPath)
        (p : Proxy) (s : S) (accessedPaths : list FieldPath) :
  createProxy identifier form prevPath = Ok p ->
  exists parent,
    getIn objGetter form prevPath = Ok parent
    /\ proxy_get onAccess p (KSym identifier) s = Ok (GotInfo parent prevPath, s)
    /\ unwrap identifier (ArgProxy p) accessedPaths
       = Ok (parent, accessedPaths ++ [prevPath]).
Proof.
  intros Hc. destruct (createProxy_inv _ _ _ _ Hc) as (par & Hpar & ->).
  exists par. repeat split; auto.
  - unfold proxy_get. simpl. now rewrite Nat.eqb_refl.
  - unfold unwrap, proxy_get. simpl. now rewrite Nat.eqb_refl.
Qed.

Lemma marker_returns_parent_witness :
  createProxy 1 example_snapshot [FStr "user"]
  = Ok (mkProxy 1 example_snapshot [FStr "user"] example_user)
  /\ exists parent,
      getIn objGetter example_snapshot [FStr "user"] = Ok parent
      /\ proxy_get push (mkProxy 1 example_snapshot [FStr "user"] example_user)
                   (KSym 1) []
         = Ok (GotInfo parent [FStr "user"], [])
      /\ unwrap 1 (ArgProxy (mkProxy 1 example_snapshot [FStr "user"] example_user)) []
         = Ok (parent, [] ++ [[FStr "user"]]).
Proof.
  assert (Hc : createProxy 1 example_snapshot [FStr "user"]
               = Ok (mkProxy 1 example_snapshot [FStr "user"] example_user))
    by reflexivity.
  split; [exact Hc|].
  exact (marker_returns_parent push 1 example_snapshot [FStr "user"] _ [] [] Hc).
Defined.

(** C2, as stated, fails: on the proxy of [["user"]] the first element of
    the pair is the object at [user], not the snapshot. *)
Lemma marker_first_is_not_snapshot :
  createProxy 1 example_snapshot [FStr "user"]
  = Ok (mkProxy 1 example_snapshot [FStr "user"] example_user)
  /\ proxy_get push (mkProxy 1 example_snapshot [FStr "user"] example_user) (KSym 1) []
     = Ok (GotInfo example_user [FStr "user"], [])
  /\ example_user <> example_snapshot.
Proof.
  repeat split; try reflexivity. discriminate.
Qed.

(** C6: every write attempted on a proxy, the first or one reached through
    it, throws the error of direct modification, and the snapshot is as it
    was. *)
Theorem proxy_mutation_rejected (root p : Proxy) (m : Mutation) (snapshot : value) :
  nested root p ->
  proxy_mutate p m snapshot = (snapshot, Throw direct_modification).
Proof.
  intros _. destruct m; reflexivity.
Qed.

Lemma proxy_mutation_rejected_witness :
  nested (mkProxy 1 example_snapshot [] example_snapshot)
         (mkProxy 1 example_snapshot [FStr "user"] example_user)
  /\ proxy_mutate (mkProxy 1 example_snapshot [FStr "user"] example_user)
                  (Assign (KStr "name") (VStr "y")) example_snapshot
     = (example_snapshot, Throw direct_modification).
Proof.
  assert (Hn : nested (mkProxy 1 example_snapshot [] example_snapshot)
                      (mkProxy 1 example_snapshot [FStr "user"] example_user)).
  { eapply (nested_get _ _ _ (KStr "user")); [apply nested_root | reflexivity]. }
  split; [exact Hn|].
  exact (proxy_mutation_rejected _ _ (Assign (KStr "name") (VStr "y")) example_snapshot Hn).
Defined.

(** ** The sanity check of [field] *)

(** C9: [NaN] handed to [field] where the snapshot holds [NaN] passes the
    sanity check, and [field] returns its helpers. *)
Theorem nan_passes_sanity_check (same_object : value -> value -> bool)
        (proxyIdentifier : symbol) (formState : value)
        (accessedPaths : list FieldPath) (path : FieldPath) (name : string)
        (controlled formControlled : value) :
  accessedPaths <> [] ->
  last accessedPaths [] = path ->
  getIn objGetter formState path = Ok (VNum nan) ->
  join_path path = Ok name ->
  sanity_check same_object (VNum nan) (VNum nan) = Ok tt
  /\ exists accessedPaths',
      field same_object proxyIdentifier formState (ArgValue (VNum nan))
            controlled formControlled accessedPaths
      = Ok (mkHelpers name (VNum nan) path, accessedPaths').
Proof.
  intros Hne Hlast Hget Hjoin. split; [reflexivity|].
  unfold field. simpl. destruct accessedPaths as [|a rest]; [congruence|].
  rewrite Hlast, Hget. simpl. rewrite Hjoin. simpl. eexists; reflexivity.
Qed.

Lemma nan_passes_sanity_check_witness :
  [[FStr "age"]] <> []
  /\ last [[FStr "age"]] [] = [FStr "age"]
  /\ getIn objGetter (VObj [(KStr "age", VNum nan)]) [FStr "age"] = Ok (VNum nan)
  /\ join_path [FStr "age"] = Ok "age"
  /\ exists accessedPaths',
      field (fun _ _ => false) 1 (VObj [(KStr "age", VNum nan)]) (ArgValue (VNum nan))
            VUndef VUndef [[FStr "age"]]
      = Ok (mkHelpers "age" (VNum nan) [FStr "age"], accessedPaths').
Proof.
  assert (H1 : [[FStr "age"]] <> ([] : list FieldPath)) by discriminate.
  assert (H2 : last [[FStr "age"]] [] = [FStr "age"]) by reflexivity.
  assert (H3 : getIn objGetter (VObj [(KStr "age", VNum nan)]) [FStr "age"]
               = Ok (VNum nan)) by reflexivity.
  assert (H4 : join_path [FStr "age"] = Ok "age") by reflexivity.
  split; [exact H1 | split; [exact H2 | split; [exact H3 | split; [exact H4|]]]].
  exact (proj2 (nan_passes_sanity_check (fun _ _ => false) 1 _ _ _ _ VUndef VUndef
                                        H1 H2 H3 H4)).
Defined.

(** C10: two values that [isNaN] both takes for not-a-number pass the
    sanity check whether or not they are equal: so do the strings ["abc"],
    stored, and ["xyz"], supplied, for which [field] returns its helpers,
    and so do two plain objects, the same or not.  What is white space
    around a number, U+00A0 included, is a number to [isNaN]. *)
Theorem non_numeric_pair_passes (same_object : value -> value -> bool)
        (fieldValue v : value) :
  isNaN fieldValue = Ok true ->
  isNaN v = Ok true ->
  sanity_check same_object fieldValue v = Ok tt
  /\ strictEquals same_object (VStr "abc") (VStr "xyz") = false
  /\ sanity_check same_object (VStr "abc") (VStr "xyz") = Ok tt
  /\ field same_object 1 (VObj [(KStr "name", VStr "abc")]) (ArgValue (VStr "xyz"))
           VUndef VUndef [[FStr "name"]]
     = Ok (mkHelpers "name" (VStr "abc") [FStr "name"], [[FStr "name"]])
  /\ sanity_check same_object (VObj []) (VObj [(KStr "a", VNum 1)]) = Ok tt
  /\ sanity_check same_object (VArr [VStr "a"]) (VArr [VNum 1; VNum 2]) = Ok tt
  /\ isNaN (VStr (no_break_space ++ "12" ++ no_break_space)) = Ok false
  /\ isNaN (VStr no_break_space) = Ok false
  /\ sanity_check same_object (VStr no_break_space) (VStr "abc")
     = Throw incorrect_field_access.
Proof.
  intros Hf Hv.
  assert (Hall : forall a b, isNaN a = Ok true -> isNaN b = Ok true ->
                             sanity_check same_object a b = Ok tt).
  { intros a b Ha Hb. unfold sanity_check.
    destruct (strictEquals same_object a b); simpl; auto. now rewrite Ha, Hb. }
  split; [now apply Hall|]. repeat split; try reflexivity.
  - apply Hall; reflexivity.
  - apply Hall; reflexivity.
Qed.

Lemma non_numeric_pair_passes_witness :
  isNaN VUndef = Ok true
  /\ isNaN (VStr "n/a") = Ok true
  /\ sanity_check (fun _ _ => false) VUndef (VStr "n/a") = Ok tt.
Proof.
  assert (H1 : isNaN VUndef = Ok true) by reflexivity.
  assert (H2 : isNaN (VStr "n/a") = Ok true) by reflexivity.
  split; [exact H1 | split; [exact H2|]].
  exact (proj1 (non_numeric_pair_passes (fun _ _ => false) VUndef (VStr "n/a") H1 H2)).
Defined.

(** ** What [getAllNested] collects *)

Section Explore.
Import FieldsMap.

Lemma reachable_trie (fields : value) : reachable fields -> trie fields.
Proof.
  induction 1 as [|fields fields' path v _ IH Hp Hs|fields fields' path _ IH Hp Hd].
  - apply trie_empty.
  - rewrite set_walk in Hs.
    destruct (setIn_walk_trie v path fields IH Hp) as (f & Hf & Ht).
    rewrite Hf in Hs. now inversion Hs; subst.
  - destruct (trie_delete fields path IH Hp) as (f & Hf & Ht).
    rewrite Hf in Hd. now inversion Hd; subst.
Qed.

Lemma forEach_key_spec (callback : value -> value -> res (list value))
      (P : value -> value -> value -> Prop) (entries : list (value * value)) :
  (forall k val, In (k, val) entries ->
                 exists l, callback k val = Ok l /\ forall v, In v l <-> P k val v) ->
  exists l,
    forEach_key callback entries = Ok l
    /\ forall v, In v l <-> exists k val, In (k, val) entries /\ P k val v.
Proof.
  induction entries as [|[k val] rest IH]; intros H; simpl.
  - exists []. split; [reflexivity|].
    intros v; split; [intros [] | intros (k & val & [] & _)].
  - destruct (H k val (or_introl eq_refl)) as (l1 & H1 & HP1). rewrite H1. simpl.
    destruct IH as (l2 & H2 & HP2).
    { intros k' val' Hin. apply H. now right. }
    rewrite H2. simpl. exists (l1 ++ l2). split; [reflexivity|].
    intros v. rewrite in_app_iff, HP1, HP2. split.
    + intros [Hp | (k' & val' & Hin & Hp)]; [exists k, val | exists k', val']; auto.
    + intros (k' & val' & [Heq | Hin] & Hp).
      * inversion Heq; subst. now left.
      * right. eauto.
Qed.

Lemma getIn_Map_cons (es : list (value * value)) (key : FieldName) (rest : FieldPath) :
  getIn mapGetter (VMap es) (key :: rest)
  = getIn mapGetter (Map_get es (normalize key)) rest.
Proof. rewrite getIn_cons. reflexivity. Qed.

Lemma Map_get_NoDup (es : list (value * value)) (key : FieldName) (val : value) :
  NoDup (map fst es) ->
  In (normalize key, val) es ->
  Map_get es (normalize key) = val.
Proof.
  intros Hnd Hin. unfold Map_get.
  now rewrite (entries_get_NoDup SameValueZero es (normalize key) val
                 (SameValueZero_normalize_refl key)
                 (fun k' => SameValueZero_normalize k' key) Hnd Hin).
Qed.

Lemma Map_get_truthy (es : list (value * value)) (key : FieldName) :
  truthy (Map_get es (normalize key)) = true ->
  In (normalize key, Map_get es (normalize key)) es.
Proof.
  unfold Map_get.
  destruct (entries_get SameValueZero es (normalize key)) as [val|] eqn:E; [|discriminate].
  intros _. apply entries_get_In in E. destruct E as (k' & Hin & Hk).
  apply SameValueZero_normalize in Hk. now subst.
Qed.

Lemma getIn_truthy_start (node : value) (path : FieldPath) (v : value) :
  path <> [] ->
  getIn mapGetter node path = Ok v ->
  truthy v = true ->
  truthy node = true.
Proof.
  intros Hne Hg Ht. destruct node; try reflexivity;
    destruct path as [|k rest]; try congruence;
    rewrite getIn_cons in Hg; simpl in Hg;
    try rewrite getIn_undefined in Hg; try discriminate;
    inversion Hg; subst; discriminate.
Qed.

(** The payloads pushed below a node: those that are truthy, at the node
    and at the paths below it that are within the depth bound. *)
Lemma explore_spec (maxDepth : option Z) (node : value) :
  trie node ->
  forall depth,
  exists l,
    explore maxDepth node depth = Ok l
    /\ forall v,
        In v l <->
        exists q,
          ~ In selfRef q
          /\ within maxDepth depth q
          /\ getIn mapGetter node (q ++ [selfRef]) = Ok v
          /\ truthy v = true.
Proof.
  induction 1 as [es Hnd Hkeys Hes IH]; intros depth.
  pose (P := fun (k val v : value) =>
               truthy val = true
               /\ ((k = normalize selfRef /\ v = val)
                   \/ (k <> normalize selfRef
                       /\ may_descend maxDepth depth = true
                       /\ exists q,
                           ~ In selfRef q
                           /\ within maxDepth (depth + 1) q
                           /\ getIn mapGetter val (q ++ [selfRef]) = Ok v
                           /\ truthy v = true))).
  cbn [explore].
  match goal with
  | |- exists l, forEach_key ?c es = Ok l /\ _ =>
      destruct (forEach_key_spec c P es) as (l & Hl & HP)
  end.
  { intros k val Hin. unfold P. destruct (truthy val) eqn:Et; simpl.
    2:{ exists []. split; [reflexivity|].
        intros v; split; [intros [] | intros [Hf _]; discriminate]. }
    destruct (SameValueZero k (VSym 0)) eqn:Es.
    - apply (SameValueZero_normalize k selfRef) in Es. exists [val]. split; [reflexivity|].
      intros v; split.
      + intros [<- | []]. split; auto.
      + intros [_ [[_ ->] | [Hne _]]]; [now left | contradiction].
    - assert (Hne : k <> normalize selfRef).
      { intros ->. simpl in Es. discriminate. }
      destruct (may_descend maxDepth depth) eqn:Ed.
      + destruct (IH k val Hin Hne (depth + 1)%Z) as (l & Hl & Hspec).
        exists l. split; [exact Hl|]. intros v. rewrite Hspec. split.
        * intros Hq. split; auto.
        * intros [_ [[Hk _] | (_ & _ & Hq)]]; [contradiction | exact Hq].
      + exists []. split; [reflexivity|]. intros v; split; [intros []|].
        intros [_ [[Hk _] | (_ & Hd & _)]]; [contradiction | discriminate]. }
  exists l. split; [exact Hl|]. intros v. rewrite HP. unfold P. clear HP Hl P l. split.
  - intros (k & val & Hin & Ht & [[-> ->] | (Hne & Hd & q & Hq & Hw & Hg & Htv)]).
    + exists []. split; [intros []|]. split; [destruct maxDepth; simpl; auto|].
      split; [|exact Ht]. cbn [app]. rewrite getIn_Map_cons.
      now rewrite (Map_get_NoDup es selfRef val Hnd Hin).
    + destruct (Hkeys k val Hin) as (key & ->).
      exists (key :: q). split; [|split; [|split; [|exact Htv]]].
      * intros [-> | Hin']; [now apply Hne | contradiction].
      * unfold within in *. destruct maxDepth as [d|]; [|exact I]. right.
        unfold may_descend in Hd. apply Z.ltb_lt in Hd.
        destruct Hw as [-> | Hw]; simpl List.length; lia.
      * cbn [app]. rewrite getIn_Map_cons.
        now rewrite (Map_get_NoDup es key val Hnd Hin).
  - intros (q & Hq & Hw & Hg & Htv). destruct q as [|key q'].
    + cbn [app] in Hg. rewrite getIn_Map_cons in Hg. inversion Hg as [Hv].
      exists (normalize selfRef), v.
      rewrite <- Hv in Htv |- *. split; [now apply Map_get_truthy|]. auto.
    + assert (Hkey : key <> selfRef) by (intros ->; apply Hq; now left).
      assert (Hq' : ~ In selfRef q') by (intros H; apply Hq; now right).
      cbn [app] in Hg. rewrite getIn_Map_cons in Hg.
      assert (Htc : truthy (Map_get es (normalize key)) = true).
      { eapply getIn_truthy_start; eauto. destruct q'; discriminate. }
      exists (normalize key), (Map_get es (normalize key)).
      split; [now apply Map_get_truthy|]. split; [exact Htc|]. right.
      split; [now apply normalize_selfRef_neq|].
      unfold within, may_descend in *. destruct maxDepth as [d|].
      * destruct Hw as [Hw | Hw]; [discriminate|]. simpl List.length in Hw.
        split; [apply Z.ltb_lt; lia|].
        exists q'. repeat split; auto. right. lia.
      * split; [reflexivity|]. exists q'. repeat split; auto.
Qed.

(** X10: on the trie of a [FieldsMap], [getAllNested(p, maxDepth)] returns, and
    what it returns are the truthy payloads stored at [p] and at the paths
    below [p], within [maxDepth] levels when that is given; the payload of
    [p] itself whatever the bound. *)
Lemma getAllNested_truthy (fields : value) (p : FieldPath) (maxDepth : option Z) :
  trie fields ->
  ~ In selfRef p ->
  exists l,
    getAllNested fields p maxDepth = Ok l
    /\ forall v,
        In v l <->
        exists q,
          ~ In selfRef q
          /\ within maxDepth 0 q
          /\ get fields (p ++ q) = Ok v
          /\ truthy v = true.
Proof.
  intros Ht Hp. unfold getAllNested, get.
  destruct (getIn_trie p fields Ht Hp) as (r & Hr & [-> | Htr]); rewrite Hr; simpl.
  - exists []. split; [reflexivity|]. intros v; split; [intros []|].
    intros (q & _ & _ & Hg & Htv). rewrite <- app_assoc, getIn_app, Hr in Hg.
    simpl in Hg. rewrite getIn_undefined in Hg. inversion Hg; subst. discriminate.
  - assert (Etr : truthy r = true) by (inversion Htr; reflexivity).
    rewrite Etr. simpl.
    destruct (explore_spec maxDepth r Htr 0%Z) as (l & Hl & Hspec).
    exists l. split; [exact Hl|]. intros v. rewrite Hspec.
    split; intros (q & Hq & Hw & Hg & Htv); exists q; repeat split; auto.
    + rewrite <- app_assoc, getIn_app, Hr. exact Hg.
    + rewrite <- app_assoc, getIn_app, Hr in Hg. exact Hg.
Qed.
End Explore.

(** * Further properties of the code *)

(** ** Path utilities *)

(** X1: once [getIn] has reached [undefined] or [null], every longer path
    reads as [undefined]; the accessor is not asked again, whatever it
    would do. *)
Theorem getIn_short_circuit (accessor : AccessorFn) (obj : value)
        (p q : FieldPath) (r : value) :
  getIn accessor obj p = Ok r ->
  is_nullish r = true ->
  q <> [] ->
  getIn accessor obj (p ++ q) = Ok VUndef.
Proof.
  intros Hp Hr Hq. rewrite getIn_app, Hp. simpl.
  destruct q as [|k rest]; [congruence|].
  rewrite getIn_cons, Hr. simpl. apply getIn_undefined.
Qed.

Lemma getIn_short_circuit_witness :
  getIn (fun _ _ => Throw TypeError) VNull [] = Ok VNull
  /\ is_nullish VNull = true
  /\ [FStr "a"; FStr "b"] <> []
  /\ getIn (fun _ _ => Throw TypeError) VNull ([] ++ [FStr "a"; FStr "b"]) = Ok VUndef.
Proof.
  assert (H1 : getIn (fun _ _ => Throw TypeError) VNull [] = Ok VNull) by reflexivity.
  assert (H2 : is_nullish VNull = true) by reflexivity.
  assert (H3 : [FStr "a"; FStr "b"] <> []) by discriminate.
  split; [exact H1 | split; [exact H2 | split; [exact H3|]]].
  exact (getIn_short_circuit _ VNull [] [FStr "a"; FStr "b"] VNull H1 H2 H3).
Defined.

(** X3: [setIn] replaces [undefined] only.  A [null] on the way makes it
    throw, though [getIn] reads the same path as [undefined]; so does any
    other primitive that is to take the last segment, unless that segment
    is [__proto__]. *)
Theorem setIn_throws_on_primitive (defaultValue : unit -> value) (obj child : value)
        (key lastKey : FieldName) (rest : FieldPath) (v : value) :
  objGetter obj key = Ok child ->
  is_undefined child = false ->
  is_object child = false ->
  (child = VNull ->
   setIn objGetter objSetter defaultValue obj (key :: rest ++ [lastKey]) v
   = Throw TypeError
   /\ getIn objGetter obj (key :: rest ++ [lastKey]) = Ok VUndef)
  /\ (ToPropertyKey lastKey <> KStr "__proto__" ->
      setIn objGetter objSetter defaultValue obj [key; lastKey] v = Throw TypeError).
Proof.
  intros Hg Hu Ho.
  assert (Hn : is_nullish obj = false) by (destruct obj; auto; discriminate).
  split.
  - intros ->. split.
    + rewrite setIn_nonempty by discriminate.
      change (key :: rest ++ [lastKey]) with ((key :: rest) ++ [lastKey]).
      unfold last_key. rewrite removelast_last, last_last. simpl. rewrite Hg. simpl.
      destruct rest; reflexivity.
    + rewrite getIn_cons, Hn, Hg. simpl.
      assert (Hne : rest ++ [lastKey] <> []) by (destruct rest; discriminate).
      destruct (rest ++ [lastKey]) as [|k more]; [congruence|].
      rewrite getIn_cons. simpl. apply getIn_undefined.
  - intros Hlast. apply PropertyKey_eqb_neq in Hlast.
    simpl. unfold last_key. simpl. rewrite Hg. simpl. rewrite Hu.
    destruct child; try discriminate; unfold objSetter; try rewrite Hlast; reflexivity.
Qed.

Lemma setIn_throws_on_primitive_witness :
  objGetter (VObj [(KStr "a", VNull)]) (FStr "a") = Ok VNull
  /\ is_undefined VNull = false
  /\ is_object VNull = false
  /\ setIn objGetter objSetter newObject (VObj [(KStr "a", VNull)])
           (FStr "a" :: [FStr "b"] ++ [FStr "c"]) (VNum 1)
     = Throw TypeError.
Proof.
  assert (H1 : objGetter (VObj [(KStr "a", VNull)]) (FStr "a") = Ok VNull) by reflexivity.
  assert (H2 : is_undefined VNull = false) by reflexivity.
  assert (H3 : is_object VNull = false) by reflexivity.
  split; [exact H1 | split; [exact H2 | split; [exact H3|]]].
  destruct (setIn_throws_on_primitive newObject _ VNull (FStr "a") (FStr "c")
                                      [FStr "b"] (VNum 1) H1 H2 H3) as [H _].
  exact (proj1 (H eq_refl)).
Defined.

Lemma PropertyKey_eqb_sym_false (a b : PropertyKey) :
  a <> b -> PropertyKey_eqb b a = false.
Proof.
  intros Hne. apply PropertyKey_eqb_neq. congruence.
Qed.

Lemma objGetter_set_other (props : list (PropertyKey * value)) (key key2 : FieldName)
      (v : value) :
  ToPropertyKey key2 <> ToPropertyKey key ->
  objGetter (VObj (entries_set PropertyKey_eqb props (ToPropertyKey key) v)) key2
  = objGetter (VObj props) key2.
Proof.
  intros Hne. unfold objGetter.
  rewrite entries_get_set_other; auto.
  - now apply PropertyKey_eqb_sym_false.
  - intros k' Hk'. apply PropertyKey_eqb_eq in Hk'. subst.
    now apply PropertyKey_eqb_sym_false.
Qed.

Lemma objSetter_VObj_inv (props : list (PropertyKey * value)) (key : FieldName)
      (v obj' : value) :
  objSetter (VObj props) key v = Ok obj' ->
  obj' = VObj (entries_set PropertyKey_eqb props (ToPropertyKey key) v).
Proof.
  unfold objSetter.
  destruct (PropertyKey_eqb (ToPropertyKey key) (KStr "__proto__")); [discriminate|].
  intros H. now inversion H.
Qed.

(** X4: on a plain object that holds no object twice, [setIn] with the
    factory of new empty objects changes nothing outside the property its
    first segment names: every path that starts with another property
    reads as before. *)
Theorem setIn_other_property_untouched
        (props : list (PropertyKey * value)) (key : FieldName) (rest : FieldPath)
        (v obj' : value) (key2 : FieldName) (q : FieldPath) :
  setIn objGetter objSetter newObject (VObj props) (key :: rest) v = Ok obj' ->
  ToPropertyKey key2 <> ToPropertyKey key ->
  getIn objGetter obj' (key2 :: q) = getIn objGetter (VObj props) (key2 :: q).
Proof.
  intros Hs Hne.
  assert (Hread : forall o child o',
             objGetter o key2 = objGetter (VObj props) key2 ->
             (exists ps, o = VObj ps) ->
             objSetter o key child = Ok o' ->
             objGetter o' key2 = objGetter (VObj props) key2 /\ exists ps, o' = VObj ps).
  { intros o child o' Ho (ps & ->) Hset. apply objSetter_VObj_inv in Hset. subst.
    split; [|eauto]. now rewrite objGetter_set_other. }
  assert (Hobj' : objGetter obj' key2 = objGetter (VObj props) key2
                  /\ exists ps, obj' = VObj ps).
  { rewrite setIn_nonempty in Hs by discriminate.
    destruct rest as [|k2 more].
    - simpl in Hs. eapply Hread; eauto.
    - change (removelast (key :: k2 :: more)) with (key :: removelast (k2 :: more)) in Hs.
      cbn [setIn_walk] in Hs.
      destruct (objGetter (VObj props) key) as [keyValue| |]; try discriminate.
      cbn [bind] in Hs. destruct (is_undefined keyValue).
      + destruct (objSetter (VObj props) key (newObject tt)) as [o1| |] eqn:E1;
          try discriminate. cbn [bind] in Hs.
        destruct (setIn_walk objGetter objSetter newObject (newObject tt)
                             (removelast (k2 :: more)) (last_key (key :: k2 :: more)) v)
          as [child| |]; try discriminate. cbn [bind] in Hs.
        destruct (Hread (VObj props) _ o1 eq_refl (ex_intro _ props eq_refl) E1)
          as [Ho1 Hps1].
        eapply Hread; eauto.
      + destruct (setIn_walk objGetter objSetter newObject keyValue
                             (removelast (k2 :: more)) (last_key (key :: k2 :: more)) v)
          as [child| |]; try discriminate. cbn [bind] in Hs.
        eapply Hread; eauto. }
  destruct Hobj' as [Hk (ps & ->)]. rewrite !getIn_cons. cbn [is_nullish]. now rewrite Hk.
Qed.

Lemma setIn_other_property_untouched_witness :
  setIn objGetter objSetter newObject (VObj [(KStr "b", VObj [(KStr "c", VNum 2)])])
        [FStr "a"; FStr "c"] (VNum 1)
  = Ok (VObj [(KStr "b", VObj [(KStr "c", VNum 2)]); (KStr "a", VObj [(KStr "c", VNum 1)])])
  /\ ToPropertyKey (FStr "b") <> ToPropertyKey (FStr "a")
  /\ getIn objGetter
           (VObj [(KStr "b", VObj [(KStr "c", VNum 2)]); (KStr "a", VObj [(KStr "c", VNum 1)])])
           [FStr "b"; FStr "c"]
     = getIn objGetter (VObj [(KStr "b", VObj [(KStr "c", VNum 2)])]) [FStr "b"; FStr "c"].
Proof.
  assert (H1 : setIn objGetter objSetter newObject
                     (VObj [(KStr "b", VObj [(KStr "c", VNum 2)])])
                     [FStr "a"; FStr "c"] (VNum 1)
               = Ok (VObj [(KStr "b", VObj [(KStr "c", VNum 2)]);
                           (KStr "a", VObj [(KStr "c", VNum 1)])])) by reflexivity.
  assert (H2 : ToPropertyKey (FStr "b") <> ToPropertyKey (FStr "a")) by discriminate.
  split; [exact H1 | split; [exact H2|]].
  exact (setIn_other_property_untouched _ (FStr "a") [FStr "c"] (VNum 1) _
                                        (FStr "b") [FStr "c"] H1 H2).
Defined.

(** X5: [mkDefault] returns the first of its values that is not
    [undefined] ([null], [false] and 0 are values), and the default when
    every one of them is [undefined]. *)
Theorem mkDefault_first_defined (defaultValue : value) (skipped : list value)
        (v : value) (rest : list value) :
  Forall (fun u => u = VUndef) skipped ->
  mkDefault defaultValue skipped = defaultValue
  /\ (is_undefined v = false ->
      mkDefault defaultValue (skipped ++ v :: rest) = v).
Proof.
  intros Hs. unfold mkDefault. induction Hs as [|u us Hu _ IH]; simpl.
  - split; [reflexivity|]. intros Hv. now rewrite Hv.
  - subst u. simpl. exact IH.
Qed.

Lemma mkDefault_first_defined_witness :
  Forall (fun u => u = VUndef) [VUndef]
  /\ mkDefault (VBool true) [VUndef] = VBool true
  /\ mkDefault (VBool true) ([VUndef] ++ VNull :: [VBool false]) = VNull.
Proof.
  assert (H : Forall (fun u => u = VUndef) [VUndef]) by (repeat constructor).
  split; [exact H|].
  destruct (mkDefault_first_defined (VBool true) [VUndef] VNull [VBool false] H)
    as [H1 H2].
  split; [exact H1 | exact (H2 eq_refl)].
Defined.

(** ** More on [FieldsMap] *)

Section FieldsMapMore.
Import FieldsMap.

(** X6: in a new [FieldsMap] nothing is stored: [get] is [undefined], [has]
    is false and [keys] and [getAllNested] are empty, at every path, the
    empty one included. *)
Theorem empty_FieldsMap_reads (path : FieldPath) (maxDepth : option Z) :
  get empty path = Ok VUndef
  /\ has empty path = Ok false
  /\ keys empty path = Ok []
  /\ getAllNested empty path maxDepth = Ok [].
Proof.
  assert (Hg : get empty path = Ok VUndef).
  { unfold get, empty. apply getIn_empty_map. destruct path; discriminate. }
  split; [exact Hg|]. split; [unfold has; now rewrite Hg|].
  unfold keys, getAllNested, empty. destruct path as [|k rest].
  - split; reflexivity.
  - rewrite getIn_empty_map by discriminate. split; reflexivity.
Qed.

(** X7: after [set(p, v)], [has(p)] tells whether [v] is something other
    than [undefined]: storing [undefined] leaves the path absent to [has].
    For every other path [has] answers as before. *)
Theorem has_after_set (fields : value) (p : FieldPath) (v : value) :
  trie fields ->
  ~ In selfRef p ->
  exists fields',
    set fields p v = Ok fields'
    /\ has fields' p = Ok (negb (is_undefined v))
    /\ forall q,
        ~ In selfRef q ->
        map normalize q <> map normalize p ->
        has fields' q = has fields q.
Proof.
  intros Ht Hp. destruct (setIn_walk_trie v p fields Ht Hp) as (fields' & Hw & _).
  exists fields'. rewrite set_walk. split; [exact Hw|]. unfold has. split.
  - unfold get. now rewrite (setIn_walk_getIn _ _ _ mapSetter_mapGetter _ _ _ _ _ Hw).
  - intros q Hq Hne. unfold get. now rewrite (setIn_walk_frame v p _ _ q Hw Hp Hq Hne).
Qed.

Lemma has_after_set_witness :
  trie empty
  /\ ~ In selfRef [FStr "a"]
  /\ exists fields',
      set empty [FStr "a"] VUndef = Ok fields'
      /\ has fields' [FStr "a"] = Ok false.
Proof.
  assert (Ht : trie empty) by apply trie_empty.
  assert (Hp : ~ In selfRef [FStr "a"]).
  { simpl. intros [H | []]. discriminate. }
  split; [exact Ht | split; [exact Hp|]].
  destruct (has_after_set empty [FStr "a"] VUndef Ht Hp) as (fields' & Hs & Hh & _).
  exists fields'. split; [exact Hs | exact Hh].
Defined.

Lemma Map_set_set (es : list (value * value)) (key : FieldName) (v1 v2 : value) :
  Map_set (Map_set es (normalize key) v1) (normalize key) v2
  = Map_set es (normalize key) v2.
Proof.
  unfold Map_set. induction es as [|[k' v'] rest IH]; simpl.
  - now rewrite SameValueZero_normalize_refl.
  - destruct (SameValueZero k' (normalize key)) eqn:E; simpl; rewrite E; [reflexivity|].
    now rewrite IH.
Qed.

Lemma setIn_walk_Map (v : value) (init : FieldPath) (node node' : value) :
  setIn_walk mapGetter mapSetter newMap node init selfRef v = Ok node' ->
  exists es, node' = VMap es.
Proof.
  destruct init as [|a rest]; cbn [setIn_walk]; intros H.
  - apply mapSetter_inv in H. destruct H as (es & _ & ->). eauto.
  - destruct (mapGetter node a) as [kv| |]; try discriminate. cbn [bind] in H.
    destruct (is_undefined kv).
    + destruct (mapSetter node a (newMap tt)) as [o| |]; try discriminate.
      cbn [bind] in H.
      destruct (setIn_walk mapGetter mapSetter newMap (newMap tt) rest selfRef v)
        as [child| |]; try discriminate.
      cbn [bind] in H. apply mapSetter_inv in H. destruct H as (es & _ & ->). eauto.
    + destruct (setIn_walk mapGetter mapSetter newMap kv rest selfRef v)
        as [child| |]; try discriminate.
      cbn [bind] in H. apply mapSetter_inv in H. destruct H as (es & _ & ->). eauto.
Qed.

(** What a walk does at its first segment: it reads the child, makes it if
    it is [undefined], walks on below it, and puts the result back. *)
Lemma setIn_walk_cons_inv (v : value) (a : FieldName) (rest : FieldPath)
      (node node' : value) :
  setIn_walk mapGetter mapSetter newMap node (a :: rest) selfRef v = Ok node' ->
  exists es es1 kv child,
    node = VMap es
    /\ setIn_walk mapGetter mapSetter newMap kv rest selfRef v = Ok child
    /\ node' = VMap (Map_set es1 (normalize a) child)
    /\ ((is_undefined (Map_get es (normalize a)) = true
         /\ kv = newMap tt /\ es1 = Map_set es (normalize a) (newMap tt))
        \/ (is_undefined (Map_get es (normalize a)) = false
            /\ kv = Map_get es (normalize a) /\ es1 = es)).
Proof.
  cbn [setIn_walk]. intros H.
  destruct (mapGetter node a) as [keyValue| |] eqn:Eg; try discriminate.
  apply mapGetter_inv in Eg. destruct Eg as (es & -> & ->). cbn [bind] in H.
  destruct (is_undefined (Map_get es (normalize a))) eqn:Eu.
  - cbn [mapSetter bind] in H.
    destruct (setIn_walk mapGetter mapSetter newMap (newMap tt) rest selfRef v)
      as [child| |] eqn:Hc; try discriminate.
    cbn [bind mapSetter] in H. inversion H; subst; clear H.
    exists es, (Map_set es (normalize a) (newMap tt)), (newMap tt), child.
    repeat split; auto.
  - destruct (setIn_walk mapGetter mapSetter newMap (Map_get es (normalize a))
                         rest selfRef v) as [child| |] eqn:Hc; try discriminate.
    cbn [bind mapSetter] in H. inversion H; subst; clear H.
    exists es, es, (Map_get es (normalize a)), child. repeat split; auto.
Qed.

Lemma setIn_walk_again (v1 v2 : value) (init : FieldPath) :
  forall node fields1,
    setIn_walk mapGetter mapSetter newMap node init selfRef v1 = Ok fields1 ->
    setIn_walk mapGetter mapSetter newMap fields1 init selfRef v2
    = setIn_walk mapGetter mapSetter newMap node init selfRef v2.
Proof.
  induction init as [|a rest IH]; intros node fields1 H.
  - cbn [setIn_walk] in *. apply mapSetter_inv in H. destruct H as (es & -> & ->).
    cbn [mapSetter]. now rewrite (Map_set_set es selfRef).
  - destruct (setIn_walk_cons_inv v1 a rest node fields1 H)
      as (es & es1 & kv & child & -> & Hc & -> & Hcase).
    destruct (setIn_walk_Map v1 rest kv child Hc) as (ces & Hchild).
    cbn [setIn_walk mapGetter bind]. rewrite Map_get_set_same.
    rewrite Hchild at 1. cbn [is_undefined]. rewrite (IH kv child Hc).
    destruct Hcase as [(Eu & -> & ->) | (Eu & -> & ->)]; rewrite Eu.
    + cbn [mapSetter bind].
      destruct (setIn_walk mapGetter mapSetter newMap (newMap tt) rest selfRef v2)
        as [child2| |]; cbn [bind]; try reflexivity.
      now rewrite !Map_set_set.
    + destruct (setIn_walk mapGetter mapSetter newMap (Map_get es (normalize a))
                           rest selfRef v2) as [child2| |]; cbn [bind]; try reflexivity.
      cbn [mapSetter]. now rewrite Map_set_set.
Qed.

(** X8: the last write wins and leaves no trace of the one before: setting
    [p] again gives the very [fields] that setting it once to the second
    value gives, order of keys included. *)
Theorem set_again (fields fields1 : value) (p : FieldPath) (v1 v2 : value) :
  set fields p v1 = Ok fields1 ->
  set fields1 p v2 = set fields p v2.
Proof.
  rewrite !set_walk. apply setIn_walk_again.
Qed.

Lemma set_again_witness :
  set empty [FStr "a"; FNum 1] (VNum 1)
  = Ok (VMap [(VStr "a", VMap [(VStr "1", VMap [(VSym 0, VNum 1)])])])
  /\ set (VMap [(VStr "a", VMap [(VStr "1", VMap [(VSym 0, VNum 1)])])])
         [FStr "a"; FNum 1] (VStr "x")
     = set empty [FStr "a"; FNum 1] (VStr "x").
Proof.
  assert (H : set empty [FStr "a"; FNum 1] (VNum 1)
              = Ok (VMap [(VStr "a", VMap [(VStr "1", VMap [(VSym 0, VNum 1)])])]))
    by reflexivity.
  split; [exact H|].
  exact (set_again empty _ [FStr "a"; FNum 1] (VNum 1) (VStr "x") H).
Defined.

Lemma setIn_walk_child_listed (v : value) (p : FieldPath) :
  forall node node' k rest,
    setIn_walk mapGetter mapSetter newMap node (p ++ k :: rest) selfRef v = Ok node' ->
    exists es child,
      getIn mapGetter node' p = Ok (VMap es) /\ In (normalize k, child) es.
Proof.
  induction p as [|a p' IH]; intros node node' k rest H.
  - cbn [app] in H.
    destruct (setIn_walk_cons_inv v k rest node node' H)
      as (es & es1 & kv & child & -> & Hc & -> & _).
    exists (Map_set es1 (normalize k) child), child. split; [reflexivity|].
    assert (Hg : Map_get (Map_set es1 (normalize k) child) (normalize k) = child)
      by apply Map_get_set_same.
    unfold Map_get in Hg.
    destruct (entries_get SameValueZero (Map_set es1 (normalize k) child) (normalize k))
      as [c|] eqn:E.
    + subst c. apply entries_get_In in E. destruct E as (k' & Hin & Hk').
      apply SameValueZero_normalize in Hk'. now subst.
    + unfold Map_set in E.
      rewrite entries_get_set_same in E by apply SameValueZero_normalize_refl.
      discriminate.
  - change ((a :: p') ++ k :: rest) with (a :: (p' ++ k :: rest)) in H.
    destruct (setIn_walk_cons_inv v a _ node node' H)
      as (es & es1 & kv & child & -> & Hc & -> & _).
    destruct (IH kv child k rest Hc) as (ces & c & Hg & Hin).
    exists ces, c. split; [|exact Hin].
    rewrite getIn_cons. cbn [is_nullish mapGetter bind]. now rewrite Map_get_set_same.
Qed.

(** X9: after [set(p.concat(k), v)] the segment [k], as a string unless it
    is a symbol, is among [keys(p)]. *)
Theorem keys_after_set (fields : value) (p : FieldPath) (k : FieldName) (v : value) :
  trie fields ->
  ~ In selfRef (p ++ [k]) ->
  exists fields' ks,
    set fields (p ++ [k]) v = Ok fields'
    /\ keys fields' p = Ok ks
    /\ In (normalize k) ks.
Proof.
  intros Ht Hp.
  destruct (setIn_walk_trie v (p ++ [k]) fields Ht Hp) as (fields' & Hw & _).
  destruct (setIn_walk_child_listed v p fields fields' k [] Hw) as (es & child & Hg & Hin).
  exists fields'. eexists. rewrite set_walk. split; [exact Hw|].
  unfold keys. rewrite Hg. cbn [bind truthy negb]. split; [reflexivity|].
  apply filter_In. split.
  - unfold Map_keys. change (normalize k) with (fst (normalize k, child)).
    now apply in_map.
  - assert (Hk : k <> selfRef).
    { intros ->. apply Hp. apply in_or_app. right. now left. }
    apply normalize_selfRef_neq in Hk.
    destruct (SameValueZero (normalize k) (normalize selfRef)) eqn:E; [|reflexivity].
    apply SameValueZero_normalize in E. contradiction.
Qed.

Lemma keys_after_set_witness :
  trie empty
  /\ ~ In selfRef ([FStr "list"] ++ [FNum 2])
  /\ exists fields' ks,
      set empty ([FStr "list"] ++ [FNum 2]) (VStr "x") = Ok fields'
      /\ keys fields' [FStr "list"] = Ok ks
      /\ In (VStr "2") ks.
Proof.
  assert (Ht : trie empty) by apply trie_empty.
  assert (Hp : ~ In selfRef ([FStr "list"] ++ [FNum 2])).
  { simpl. intros [H | [H | []]]; discriminate. }
  split; [exact Ht | split; [exact Hp|]].
  exact (keys_after_set empty [FStr "list"] (FNum 2) (VStr "x") Ht Hp).
Defined.
End FieldsMapMore.

Section FieldsMapDelete.
Import FieldsMap.

Lemma trie_one_payload : trie (VMap [(VStr "a", VMap [(VSym 0, VNum 5)])]).
Proof.
  destruct (setIn_walk_trie (VNum 5) [FStr "a"] empty trie_empty) as (f & Hf & Ht).
  - simpl. intros [H | []]. discriminate.
  - inversion Hf; subst. exact Ht.
Qed.

Lemma getAllNested_truthy_witness :
  trie (VMap [(VStr "a", VMap [(VSym 0, VNum 5)])])
  /\ ~ In selfRef [FStr "a"]
  /\ exists l,
      getAllNested (VMap [(VStr "a", VMap [(VSym 0, VNum 5)])]) [FStr "a"] (Some 0%Z)
      = Ok l
      /\ forall v,
          In v l <->
          exists q,
            ~ In selfRef q
            /\ within (Some 0%Z) 0 q
            /\ get (VMap [(VStr "a", VMap [(VSym 0, VNum 5)])]) ([FStr "a"] ++ q) = Ok v
            /\ truthy v = true.
Proof.
  assert (Hp : ~ In selfRef [FStr "a"]).
  { simpl. intros [H | []]. discriminate. }
  split; [exact trie_one_payload | split; [exact Hp|]].
  exact (getAllNested_truthy _ [FStr "a"] (Some 0%Z) trie_one_payload Hp).
Defined.

(** X11: where the payload stored at the parent path is no [Map], and so
    where nothing is stored there, [delete(path)] returns and leaves the
    fields exactly as they were, the entry at [path] included. *)
Theorem delete_without_Map (fields : value) (path : FieldPath) :
  trie fields ->
  ~ In selfRef path ->
  (forall reference,
      get fields (removelast path) = Ok reference -> isMap reference = false) ->
  delete fields path = Ok fields
  /\ exists reference, get fields (removelast path) = Ok reference.
Proof.
  intros Ht Hp Hpayload.
  destruct (get_total fields _ Ht (removelast_notin path Hp)) as (reference & Hg).
  split; [|eauto]. unfold delete. rewrite Hg. cbn [bind].
  now rewrite (Hpayload reference Hg).
Qed.

Lemma delete_without_Map_witness :
  trie (VMap [(VStr "a", VMap [(VSym 0, VNum 5)])])
  /\ ~ In selfRef [FStr "a"]
  /\ delete (VMap [(VStr "a", VMap [(VSym 0, VNum 5)])]) [FStr "a"]
     = Ok (VMap [(VStr "a", VMap [(VSym 0, VNum 5)])]).
Proof.
  assert (Hp : ~ In selfRef [FStr "a"]).
  { simpl. intros [H | []]. discriminate. }
  split; [exact trie_one_payload | split; [exact Hp|]].
  refine (proj1 (delete_without_Map _ [FStr "a"] trie_one_payload Hp _)).
  intros reference Hg. inversion Hg. reflexivity.
Defined.

(** X12: a [FieldsMap] never throws: in every state it goes through, and
    for every path of a caller, [get], [has], [keys], [getAllNested], [set]
    and [delete] return, and [set] and [delete] lead to such a state
    again. *)
Theorem FieldsMap_never_throws (fields : value) (path : FieldPath)
        (maxDepth : option Z) (v : value) :
  reachable fields ->
  ~ In selfRef path ->
  (exists r, get fields path = Ok r)
  /\ (exists b, has fields path = Ok b)
  /\ (exists ks, keys fields path = Ok ks)
  /\ (exists l, getAllNested fields path maxDepth = Ok l)
  /\ (exists fields', set fields path v = Ok fields' /\ reachable fields')
  /\ (exists fields', delete fields path = Ok fields' /\ reachable fields').
Proof.
  intros Hr Hp. assert (Ht : trie fields) by now apply reachable_trie.
  destruct (get_total fields path Ht Hp) as (r & Hg).
  split; [eauto|]. split; [unfold has; rewrite Hg; cbn [bind]; eauto|].
  split; [|split; [|split]].
  - unfold keys. destruct (getIn_trie path fields Ht Hp) as (n & Hn & [-> | Htn]);
      rewrite Hn; cbn [bind truthy negb]; [eauto|].
    inversion Htn; subst. cbn [truthy negb]. eauto.
  - unfold getAllNested.
    destruct (getIn_trie path fields Ht Hp) as (n & Hn & [-> | Htn]);
      rewrite Hn; cbn [bind truthy negb]; [eauto|].
    destruct (explore_spec maxDepth n Htn 0%Z) as (l & Hl & _).
    inversion Htn; subst. cbn [truthy negb]. eauto.
  - destruct (setIn_walk_trie v path fields Ht Hp) as (fields' & Hw & _).
    rewrite <- set_walk in Hw. exists fields'. split; [exact Hw|].
    eapply reachable_set; eauto.
  - destruct (trie_delete fields path Ht Hp) as (fields' & Hd & _).
    exists fields'. split; [exact Hd|]. eapply reachable_delete; eauto.
Qed.

Lemma FieldsMap_never_throws_witness :
  reachable (VMap [(VStr "a", VMap [(VSym 0, VNum 5)])])
  /\ ~ In selfRef [FStr "a"; FStr "b"]
  /\ exists r, get (VMap [(VStr "a", VMap [(VSym 0, VNum 5)])]) [FStr "a"; FStr "b"] = Ok r.
Proof.
  assert (Hr : reachable (VMap [(VStr "a", VMap [(VSym 0, VNum 5)])])).
  { apply (reachable_set empty _ [FStr "a"] (VNum 5)).
    - apply reachable_new.
    - simpl. intros [H | []]. discriminate.
    - reflexivity. }
  assert (Hp : ~ In selfRef [FStr "a"; FStr "b"]).
  { simpl. intros [H | [H | []]]; discriminate. }
  split; [exact Hr | split; [exact Hp|]].
  exact (proj1 (FieldsMap_never_throws _ [FStr "a"; FStr "b"] None VUndef Hr Hp)).
Defined.
End FieldsMapDelete.

(** ** More on the proxy *)

(** X13: every proxy reached through a first one is the proxy
    [createProxy] makes for its own path on the same snapshot and with the
    same marker: what it stands for is what [getIn] finds at its path, and
    its path goes on from the path of the first. *)
Theorem nested_proxy_is_createProxy (marker : symbol) (snapshot : value)
        (path0 : FieldPath) (root q : Proxy) :
  createProxy marker snapshot path0 = Ok root ->
  nested root q ->
  createProxy marker snapshot (prevPath q) = Ok q
  /\ getIn objGetter snapshot (prevPath q) = Ok (parent q)
  /\ exists props, prevPath q = path0 ++ props.
Proof.
  intros Hroot Hn. induction Hn as [|p q prop Hn IH Hget].
  - destruct (createProxy_inv _ _ _ _ Hroot) as (par & Hpar & ->). simpl.
    repeat split; auto. exists []. now rewrite app_nil_r.
  - destruct IH as (Hp & Hpar & props & Hprops).
    destruct (createProxy_inv _ _ _ _ Hp) as (par & _ & Ep).
    unfold proxy_get in Hget.
    destruct (PropertyKey_eqb prop (KSym (identifier p))); [discriminate|].
    destruct (objGetter (parent p) (FieldName_of prop)) as [v| |]; try discriminate.
    cbn [bind] in Hget.
    destruct (isArray v || isPlainObject v).
    2:{ destruct (isFunction v); discriminate. }
    destruct (createProxy (identifier p) (form p) (prevPath p ++ [FieldName_of prop]))
      as [q'| |] eqn:Eq; try discriminate.
    cbn [bind] in Hget. inversion Hget; subst q'; clear Hget.
    assert (Eid : identifier p = marker) by (rewrite Ep; reflexivity).
    assert (Eform : form p = snapshot) by (rewrite Ep; reflexivity).
    rewrite Eid, Eform in Eq.
    destruct (createProxy_inv _ _ _ _ Eq) as (par' & Hpar' & Eq').
    assert (Hpath : prevPath q = prevPath p ++ [FieldName_of prop]).
    { rewrite Eq'. reflexivity. }
    assert (Hparent : parent q = par') by (rewrite Eq'; reflexivity).
    rewrite Hpath, Hparent. split; [exact Eq|]. split; [exact Hpar'|].
    exists (props ++ [FieldName_of prop]). now rewrite Hprops, app_assoc.
Qed.

Lemma nested_proxy_is_createProxy_witness :
  createProxy 1 example_snapshot [] = Ok (mkProxy 1 example_snapshot [] example_snapshot)
  /\ nested (mkProxy 1 example_snapshot [] example_snapshot)
            (mkProxy 1 example_snapshot [FStr "user"] example_user)
  /\ getIn objGetter example_snapshot [FStr "user"] = Ok example_user.
Proof.
  assert (Hc : createProxy 1 example_snapshot []
               = Ok (mkProxy 1 example_snapshot [] example_snapshot)) by reflexivity.
  assert (Hn : nested (mkProxy 1 example_snapshot [] example_snapshot)
                      (mkProxy 1 example_snapshot [FStr "user"] example_user)).
  { eapply (nested_get _ _ _ (KStr "user")); [apply nested_root | reflexivity]. }
  split; [exact Hc | split; [exact Hn|]].
  destruct (nested_proxy_is_createProxy 1 example_snapshot [] _ _ Hc Hn) as (_ & H & _).
  exact H.
Defined.

(** X14: [createProxy] also returns a proxy for a path where the snapshot
    has nothing; on that proxy every read throws a [TypeError], the read of
    the marker apart, which returns the pair as ever. *)
Theorem proxy_of_nothing {S : Type} (onAccess : FieldPath -> S -> S)
        (identifier : symbol) (form : value) (prevPath : FieldPath)
        (p : Proxy) (prop : PropertyKey) (s : S) :
  createProxy identifier form prevPath = Ok p ->
  is_nullish (parent p) = true ->
  prop <> KSym identifier ->
  proxy_get onAccess p prop s = Throw TypeError
  /\ proxy_get onAccess p (KSym identifier) s = Ok (GotInfo (parent p) prevPath, s).
Proof.
  intros Hc Hn Hprop. destruct (createProxy_inv _ _ _ _ Hc) as (par & Hpar & ->).
  simpl in Hn. split.
  - unfold proxy_get. simpl. rewrite (PropertyKey_eqb_neq _ _ Hprop).
    destruct par; try discriminate; reflexivity.
  - unfold proxy_get. simpl. now rewrite Nat.eqb_refl.
Qed.

Lemma proxy_of_nothing_witness :
  createProxy 1 example_snapshot [FStr "address"; FStr "city"]
  = Ok (mkProxy 1 example_snapshot [FStr "address"; FStr "city"] VUndef)
  /\ is_nullish VUndef = true
  /\ KStr "zip" <> KSym 1
  /\ proxy_get push (mkProxy 1 example_snapshot [FStr "address"; FStr "city"] VUndef)
               (KStr "zip") []
     = Throw TypeError.
Proof.
  assert (Hc : createProxy 1 example_snapshot [FStr "address"; FStr "city"]
               = Ok (mkProxy 1 example_snapshot [FStr "address"; FStr "city"] VUndef))
    by reflexivity.
  assert (Hn : is_nullish VUndef = true) by reflexivity.
  assert (Hk : KStr "zip" <> KSym 1) by discriminate.
  split; [exact Hc | split; [exact Hn | split; [exact Hk|]]].
  exact (proj1 (proxy_of_nothing push 1 example_snapshot _ _ (KStr "zip") [] Hc Hn Hk)).
Defined.

(** ** More on [field] *)

Lemma unwrap_value (proxyIdentifier : symbol) (v : value)
      (accessedPaths : list FieldPath) :
  (forall props, v = VObj props ->
                 entries_get PropertyKey_eqb props (KSym proxyIdentifier) = None) ->
  unwrap proxyIdentifier (ArgValue v) accessedPaths = Ok (v, accessedPaths).
Proof.
  intros Hv. unfold unwrap. destruct v; try reflexivity.
  - simpl. destruct b; reflexivity.
  - simpl. destruct (negb (PrimFloat.eqb x 0 || PrimFloat.is_nan x)); reflexivity.
  - simpl. destruct (negb (String.eqb s "")); reflexivity.
  - simpl. unfold objGetter. simpl. now rewrite (Hv props eq_refl).
Qed.

(** X15: [field] called when no path has been recorded, on anything but a
    proxy (or an object that carries the marker), throws the error of
    incorrect form access. *)
Theorem field_without_access (same_object : value -> value -> bool)
        (proxyIdentifier : symbol) (formState v controlled formControlled : value) :
  (forall props, v = VObj props ->
                 entries_get PropertyKey_eqb props (KSym proxyIdentifier) = None) ->
  field same_object proxyIdentifier formState (ArgValue v) controlled formControlled []
  = Throw incorrect_form_access.
Proof.
  intros Hv. unfold field. now rewrite (unwrap_value _ _ _ Hv).
Qed.

Lemma field_without_access_witness :
  (forall props, VObj [(KStr "name", VStr "x")] = VObj props ->
                 entries_get PropertyKey_eqb props (KSym 1) = None)
  /\ field (fun _ _ => false) 1 example_snapshot (ArgValue (VObj [(KStr "name", VStr "x")]))
           VUndef VUndef []
     = Throw incorrect_form_access.
Proof.
  assert (H : forall props, VObj [(KStr "name", VStr "x")] = VObj props ->
                            entries_get PropertyKey_eqb props (KSym 1) = None).
  { intros props E. inversion E. reflexivity. }
  split; [exact H|].
  exact (field_without_access (fun _ _ => false) 1 example_snapshot _ VUndef VUndef H).
Defined.

Lemma field_last (formState : value) (same_object : value -> value -> bool)
      (proxyIdentifier : symbol) (v : value) (controlled formControlled : value)
      (accessedPaths : list FieldPath) :
  accessedPaths <> [] ->
  unwrap proxyIdentifier (ArgValue v) accessedPaths = Ok (v, accessedPaths) ->
  field same_object proxyIdentifier formState (ArgValue v) controlled formControlled
        accessedPaths
  = (fieldValue <- getIn objGetter formState (last accessedPaths []) ;;
     _ <- sanity_check same_object fieldValue v ;;
     name <- join_path (last accessedPaths []) ;;
     Ok (mkHelpers name fieldValue (last accessedPaths []),
         if negb (truthy (mkDefault (VBool true) [controlled; formControlled]))
         then removelast accessedPaths else accessedPaths)).
Proof.
  intros Hne Hu. unfold field. rewrite Hu. cbn [bind].
  destruct accessedPaths as [|a rest]; [congruence|]. reflexivity.
Qed.

(** X16: [field] called on a proxy of this form needs no earlier access:
    it records the path of the proxy itself, and returns the object the
    proxy stands for under the dotted name of that path; an uncontrolled
    field leaves the list of accesses as it found it. *)
Theorem field_on_proxy (same_object : value -> value -> bool)
        (proxyIdentifier : symbol) (formState : value) (path : FieldPath)
        (p : Proxy) (dotted : string) (controlled formControlled : value)
        (accessedPaths : list FieldPath) :
  createProxy proxyIdentifier formState path = Ok p ->
  is_object (parent p) = true ->
  same_object (parent p) (parent p) = true ->
  join_path path = Ok dotted ->
  field same_object proxyIdentifier formState (ArgProxy p) controlled formControlled
        accessedPaths
  = Ok (mkHelpers dotted (parent p) path,
        if truthy (mkDefault (VBool true) [controlled; formControlled])
        then accessedPaths ++ [path] else accessedPaths).
Proof.
  intros Hc Ho Hs Hj. destruct (createProxy_inv _ _ _ _ Hc) as (par & Hpar & ->).
  simpl in Ho, Hs. unfold field, unwrap, proxy_get. simpl.
  rewrite Nat.eqb_refl. cbn [bind]. unfold push.
  destruct (accessedPaths ++ [path]) as [|a rest] eqn:E.
  { destruct accessedPaths; discriminate. }
  rewrite <- E. rewrite last_last, Hpar. cbn [bind].
  assert (Hsc : sanity_check same_object par par = Ok tt).
  { unfold sanity_check, strictEquals.
    destruct par; try discriminate; simpl; rewrite Hs; reflexivity. }
  rewrite Hsc, Hj. cbn [bind]. rewrite removelast_last.
  destruct (truthy (mkDefault (VBool true) [controlled; formControlled])); reflexivity.
Qed.

Lemma field_on_proxy_witness :
  createProxy 1 example_snapshot [FStr "user"]
  = Ok (mkProxy 1 example_snapshot [FStr "user"] example_user)
  /\ is_object example_user = true
  /\ join_path [FStr "user"] = Ok "user"
  /\ field (fun _ _ => true) 1 example_snapshot
           (ArgProxy (mkProxy 1 example_snapshot [FStr "user"] example_user))
           (VBool false) VUndef []
     = Ok (mkHelpers "user" example_user [FStr "user"], []).
Proof.
  assert (Hc : createProxy 1 example_snapshot [FStr "user"]
               = Ok (mkProxy 1 example_snapshot [FStr "user"] example_user))
    by reflexivity.
  assert (Ho : is_object example_user = true) by reflexivity.
  assert (Hj : join_path [FStr "user"] = Ok "user") by reflexivity.
  split; [exact Hc | split; [exact Ho | split; [exact Hj|]]].
  exact (field_on_proxy (fun _ _ => true) 1 example_snapshot [FStr "user"] _ "user"
                        (VBool false) VUndef [] Hc Ho eq_refl Hj).
Defined.

(** X17: the sanity check does catch a value that is not the one at the
    last recorded path when one of the two converts to a number: [field]
    then throws the error of incorrect field access. *)
Theorem field_misuse_detected (same_object : value -> value -> bool)
        (proxyIdentifier : symbol) (formState fieldValue v : value)
        (controlled formControlled : value) (accessedPaths : list FieldPath) :
  accessedPaths <> [] ->
  is_object v = false ->
  getIn objGetter formState (last accessedPaths []) = Ok fieldValue ->
  strictEquals same_object fieldValue v = false ->
  isNaN fieldValue = Ok false \/ (isNaN fieldValue = Ok true /\ isNaN v = Ok false) ->
  field same_object proxyIdentifier formState (ArgValue v) controlled formControlled
        accessedPaths
  = Throw incorrect_field_access.
Proof.
  intros Hne Ho Hg Hneq Hnan.
  rewrite field_last; [|exact Hne|].
  - rewrite Hg. cbn [bind]. unfold sanity_check. rewrite Hneq. cbn [negb].
    destruct Hnan as [Hf | [Hf Hv]]; rewrite Hf; cbn [bind]; [reflexivity|].
    rewrite Hv. reflexivity.
  - apply unwrap_value. intros props ->. discriminate.
Qed.

Lemma field_misuse_detected_witness :
  [[FStr "user"; FStr "age"]] <> []
  /\ is_object (VNum 4) = false
  /\ getIn objGetter example_snapshot (last [[FStr "user"; FStr "age"]] []) = Ok (VNum 3)
  /\ strictEquals (fun _ _ => false) (VNum 3) (VNum 4) = false
  /\ field (fun _ _ => false) 1 example_snapshot (ArgValue (VNum 4)) VUndef VUndef
           [[FStr "user"; FStr "age"]]
     = Throw incorrect_field_access.
Proof.
  assert (H1 : [[FStr "user"; FStr "age"]] <> ([] : list FieldPath)) by discriminate.
  assert (H2 : is_object (VNum 4) = false) by reflexivity.
  assert (H3 : getIn objGetter example_snapshot (last [[FStr "user"; FStr "age"]] [])
               = Ok (VNum 3)) by reflexivity.
  assert (H4 : strictEquals (fun _ _ => false) (VNum 3) (VNum 4) = false) by reflexivity.
  split; [exact H1 | split; [exact H2 | split; [exact H3 | split; [exact H4|]]]].
  exact (field_misuse_detected (fun _ _ => false) 1 example_snapshot (VNum 3) (VNum 4)
                               VUndef VUndef _ H1 H2 H3 H4 (or_introl eq_refl)).
Defined.

(** X18: whether a field is controlled is its own option when it has
    one, the option of the form otherwise, and true when neither is given;
    the access of a field that is not controlled is taken off the list
    again. *)
Theorem field_controlled (same_object : value -> value -> bool)
        (proxyIdentifier : symbol) (formState fieldValue v : value)
        (own ofForm : option bool) (dotted : string)
        (accessedPaths : list FieldPath) :
  accessedPaths <> [] ->
  is_object v = false ->
  getIn objGetter formState (last accessedPaths []) = Ok fieldValue ->
  strictEquals same_object fieldValue v = true ->
  join_path (last accessedPaths []) = Ok dotted ->
  field same_object proxyIdentifier formState (ArgValue v) (flag own) (flag ofForm)
        accessedPaths
  = Ok (mkHelpers dotted fieldValue (last accessedPaths []),
        if match own with
           | Some b => b
           | None => match ofForm with Some b => b | None => true end
           end
        then accessedPaths else removelast accessedPaths).
Proof.
  intros Hne Ho Hg Heq Hj.
  rewrite field_last; [|exact Hne|].
  - rewrite Hg. cbn [bind]. unfold sanity_check. rewrite Heq. cbn [negb bind].
    rewrite Hj. cbn [bind].
    destruct own as [[|]|]; [reflexivity | reflexivity |].
    destruct ofForm as [[|]|]; reflexivity.
  - apply unwrap_value. intros props ->. discriminate.
Qed.

Lemma field_controlled_witness :
  [[FStr "user"; FStr "age"]] <> []
  /\ is_object (VNum 3) = false
  /\ getIn objGetter example_snapshot (last [[FStr "user"; FStr "age"]] []) = Ok (VNum 3)
  /\ strictEquals (fun _ _ => false) (VNum 3) (VNum 3) = true
  /\ join_path (last [[FStr "user"; FStr "age"]] []) = Ok "user.age"
  /\ field (fun _ _ => false) 1 example_snapshot (ArgValue (VNum 3))
           (flag None) (flag (Some false)) [[FStr "user"; FStr "age"]]
     = Ok (mkHelpers "user.age" (VNum 3) (last [[FStr "user"; FStr "age"]] []),
           removelast [[FStr "user"; FStr "age"]]).
Proof.
  assert (H1 : [[FStr "user"; FStr "age"]] <> ([] : list FieldPath)) by discriminate.
  assert (H2 : is_object (VNum 3) = false) by reflexivity.
  assert (H3 : getIn objGetter example_snapshot (last [[FStr "user"; FStr "age"]] [])
               = Ok (VNum 3)) by reflexivity.
  assert (H4 : strictEquals (fun _ _ => false) (VNum 3) (VNum 3) = true) by reflexivity.
  assert (H5 : join_path (last [[FStr "user"; FStr "age"]] []) = Ok "user.age")
    by reflexivity.
  split; [exact H1 | split; [exact H2 | split; [exact H3 | split; [exact H4 |
    split; [exact H5|]]]]].
  exact (field_controlled (fun _ _ => false) 1 example_snapshot (VNum 3) (VNum 3)
                          None (Some false) "user.age" _ H1 H2 H3 H4 H5).
Defined.

(** ** [onChange] *)

(** X19: what [onChange] hands to [update] writes the new value where the
    field was read: run on a form in which the path of the field can be
    set, it returns, and [getIn] then reads the new value at that path,
    the value handed in as it is when it is no object, transformed when a
    transform is given.  A change notifies unless a mode other than
    ["onChange"] is chosen, and never when a blur triggers. *)
Theorem onChange_sets_field (fieldPath : FieldPath) (fieldValue : value)
        (transform : option (value -> value -> res value))
        (fieldMode formMode : value) (eventOrValue raw newValue formState : value) :
  event_value eventOrValue = Ok raw ->
  match transform with
  | Some t => t raw fieldValue
  | None => Ok raw
  end = Ok newValue ->
  settable formState fieldPath = true ->
  (is_object eventOrValue = false -> raw = eventOrValue)
  /\ exists u formState',
      onChange fieldPath fieldValue transform fieldMode formMode eventOrValue = Ok u
      /\ mutator u formState = Ok formState'
      /\ getIn objGetter formState' fieldPath = Ok newValue
      /\ (fieldMode = VUndef -> formMode = VUndef -> notify u = true)
      /\ notify u && onBlur fieldMode formMode = false.
Proof.
  intros Hev Ht Hset. split.
  - intros Ho. unfold event_value in Hev. rewrite Ho in Hev. now inversion Hev.
  - assert (Hne : fieldPath <> []) by (destruct fieldPath; [discriminate | congruence]).
    rewrite <- (removelast_last_key fieldPath Hne) in Hset.
    destruct (setIn_walk_settable _ _ newValue _ Hset) as (formState' & Hw).
    unfold onChange. rewrite Hev. cbn [bind]. rewrite Ht. cbn [bind].
    eexists. exists formState'. split; [reflexivity|]. cbn [mutator notify].
    split; [now rewrite setIn_nonempty|]. split.
    + rewrite <- (removelast_last_key fieldPath Hne) at 1.
      eapply setIn_walk_getIn; [apply objSetter_objGetter | exact Hw].
    + split.
      * intros -> ->. reflexivity.
      * unfold onBlur, is_string.
        destruct (mkDefault (VStr "onChange") [fieldMode; formMode]); try reflexivity.
        destruct (String.eqb s "onChange") eqn:E; [|reflexivity].
        apply String.eqb_eq in E. subst. reflexivity.
Qed.

Lemma onChange_sets_field_witness :
  event_value (VObj [(KStr "target",
                      VObj [(KStr "type", VStr "checkbox"); (KStr "checked", VBool true)])])
  = Ok (VBool true)
  /\ settable example_snapshot [FStr "user"; FStr "admin"] = true
  /\ exists u formState',
      onChange [FStr "user"; FStr "admin"] VUndef None VUndef (VStr "onBlur")
               (VObj [(KStr "target",
                       VObj [(KStr "type", VStr "checkbox"); (KStr "checked", VBool true)])])
      = Ok u
      /\ mutator u example_snapshot = Ok formState'
      /\ getIn objGetter formState' [FStr "user"; FStr "admin"] = Ok (VBool true).
Proof.
  assert (H1 : event_value
                 (VObj [(KStr "target",
                         VObj [(KStr "type", VStr "checkbox");
                               (KStr "checked", VBool true)])])
               = Ok (VBool true)) by reflexivity.
  assert (H2 : settable example_snapshot [FStr "user"; FStr "admin"] = true)
    by reflexivity.
  split; [exact H1 | split; [exact H2|]].
  destruct (onChange_sets_field [FStr "user"; FStr "admin"] VUndef None VUndef
                                (VStr "onBlur") _ (VBool true) (VBool true)
                                example_snapshot H1 eq_refl H2)
    as (_ & u & formState' & Hu & Hm & Hg & _).
  exists u, formState'. split; [exact Hu | split; [exact Hm | exact Hg]].
Defined.
